(** * TCPPeer: the per-connection I/O engine of the overlay

    A shallow embedding of [src/overlay/TCPPeer.cpp].  Every member
    function of [TCPPeer] becomes a function on a record holding the
    object's fields; calls into collaborators (the asio socket and timer,
    the overlay manager, the metrics meters, the message sink) are
    appended, in program order, to the [trace] field.  Values the
    environment supplies (clock readings, completion error codes, bytes
    received) are arguments of the handler that consumes them. *)

From Stdlib Require Import ZArith List Bool Lia.
From Stdlib Require Import Init.Byte Strings.Byte.
Import ListNotations.

Local Open Scope Z_scope.

(** ** Constants *)

Definition IO_TIMEOUT_SECONDS : Z := 30.
Definition MAX_MESSAGE_SIZE : Z := 0x1000000.

(** ** Machine arithmetic *)

(** The value of a [uint8_t] element of a buffer. *)
Definition u8 (b : byte) : Z := Z.of_N (Byte.to_N b).

(** The [uint8_t] whose value is [z mod 256]. *)
Definition byte_of_Z (z : Z) : byte :=
  match Byte.of_N (Z.to_N (z mod 256)) with
  | Some b => b
  | None => x00
  end.

(** A 32-bit two's complement [int]: the result of an operation is
    wrapped into [-2^31, 2^31). *)
Definition int32 (z : Z) : Z := (z + 2 ^ 31) mod 2 ^ 32 - 2 ^ 31.

Definition int_and (a b : Z) : Z := int32 (Z.land a b).
Definition int_or (a b : Z) : Z := int32 (Z.lor a b).
Definition int_shl (a n : Z) : Z := int32 (Z.shiftl a n).

(** ** Data model *)

(** Modelled from the spec: the [PeerState] enumeration is declared in
    [Peer.h], which is not part of the translated sources; the file only
    names [CLOSING].  The spec gives the lifecycle
    Connecting -> Connected -> Closing. *)
Inductive PeerState : Type :=
| CONNECTING
| CONNECTED
| CLOSING.

Inductive PeerRole : Type :=
| WE_CALLED_REMOTE
| REMOTE_CALLED_US.

(** The eight medida meters created by the constructor. *)
Inductive Meter : Type :=
| MessageRead
| MessageWrite
| ByteRead
| ByteWrite
| ErrorRead
| ErrorWrite
| TimeoutRead
| TimeoutWrite.

(** One serialized outbound message ([xdr::msg_ptr]): its raw bytes. *)
Definition Frame : Type := list byte.

(** Calls that leave the object. *)
Inductive Effect : Type :=
| TimerCancel                      (* mIdleTimer.cancel() *)
| TimerArm (seconds : Z)           (* expires_from_now + async_wait *)
| DropPeer                         (* getOverlayManager().dropPeer(self) *)
| SocketCancel                     (* mSocket->cancel() *)
| SocketClose                      (* mSocket->close() *)
| AsyncConnect                     (* socket->async_connect *)
| AsyncReadHeader (size : Z)       (* async_read into mIncomingHeader *)
| AsyncReadBody (size : Z)         (* async_read into mIncomingBody *)
| AsyncWrite (buf : Frame)         (* async_write of the front frame *)
| Mark (m : Meter) (n : Z)         (* meter.Mark(n); Mark() is Mark(1) *)
| Deliver (body : list byte) (authenticated : bool).
                                   (* Peer::recvMessage(am / sm) *)

Record TCPPeer : Type := mkTCPPeer {
  mRole : PeerRole;
  mState : PeerState;
  mSocket : bool;                  (* the shared_ptr is non-null *)
  mLastRead : Z;                   (* clock ticks *)
  mLastWrite : Z;
  mWriteQueue : list Frame;        (* front of the queue first *)
  mIncomingHeader : list byte;
  mIncomingBody : list byte;
  trace : list Effect
}.

Definition set_mState (v : PeerState) (p : TCPPeer) : TCPPeer :=
  mkTCPPeer (mRole p) v (mSocket p) (mLastRead p) (mLastWrite p)
            (mWriteQueue p) (mIncomingHeader p) (mIncomingBody p) (trace p).

Definition set_mLastRead (v : Z) (p : TCPPeer) : TCPPeer :=
  mkTCPPeer (mRole p) (mState p) (mSocket p) v (mLastWrite p)
            (mWriteQueue p) (mIncomingHeader p) (mIncomingBody p) (trace p).

Definition set_mLastWrite (v : Z) (p : TCPPeer) : TCPPeer :=
  mkTCPPeer (mRole p) (mState p) (mSocket p) (mLastRead p) v
            (mWriteQueue p) (mIncomingHeader p) (mIncomingBody p) (trace p).

Definition set_mWriteQueue (v : list Frame) (p : TCPPeer) : TCPPeer :=
  mkTCPPeer (mRole p) (mState p) (mSocket p) (mLastRead p) (mLastWrite p)
            v (mIncomingHeader p) (mIncomingBody p) (trace p).

Definition set_mIncomingHeader (v : list byte) (p : TCPPeer) : TCPPeer :=
  mkTCPPeer (mRole p) (mState p) (mSocket p) (mLastRead p) (mLastWrite p)
            (mWriteQueue p) v (mIncomingBody p) (trace p).

Definition set_mIncomingBody (v : list byte) (p : TCPPeer) : TCPPeer :=
  mkTCPPeer (mRole p) (mState p) (mSocket p) (mLastRead p) (mLastWrite p)
            (mWriteQueue p) (mIncomingHeader p) v (trace p).

(** Record one outgoing call. *)
Definition emit (e : Effect) (p : TCPPeer) : TCPPeer :=
  mkTCPPeer (mRole p) (mState p) (mSocket p) (mLastRead p) (mLastWrite p)
            (mWriteQueue p) (mIncomingHeader p) (mIncomingBody p)
            (trace p ++ [e]).

(** [std::vector::resize(n)]: keep the first [n] elements, pad with
    zero bytes. *)
Definition resize (n : nat) (v : list byte) : list byte :=
  firstn n v ++ repeat x00 (n - length v).

(** [v[i]] on a byte buffer, as an [int]. *)
Definition at_ (v : list byte) (i : nat) : Z := u8 (nth i v x00).

(** ** Helpers inherited from [Peer] *)

Definition is_closing (s : PeerState) : bool :=
  match s with CLOSING => true | _ => false end.

(** Modelled from the spec: [Peer::shouldAbort] is defined in
    [Peer.cpp], which is not part of the translated sources.  The spec
    has every completion "check state and no-op if already Closing". *)
Definition shouldAbort (p : TCPPeer) : bool := is_closing (mState p).

(** Modelled from the spec: [Peer::isConnected] is defined in
    [Peer.cpp]; the spec's state between Connecting and Closing is
    Connected. *)
Definition isConnected (p : TCPPeer) : bool :=
  match mState p with CONNECTED => true | _ => false end.

(** ** Teardown *)

(** [TCPPeer::drop].  An exception thrown by [close] is logged and
    swallowed, so the call is recorded either way. *)
Definition drop (p : TCPPeer) : TCPPeer :=
  if is_closing (mState p) then p
  else
    let p := set_mState CLOSING p in
    let p := emit TimerCancel p in
    let p := emit DropPeer p in
    emit SocketClose p.

(** [TCPPeer::~TCPPeer].  [win32] is the build configuration ([_WIN32]
    defined); [cancelThrows] says whether [mSocket->cancel()] throws
    [asio::system_error], which the handler ignores, skipping [close]. *)
Definition destroy (win32 cancelThrows : bool) (p : TCPPeer) : TCPPeer :=
  let p := emit TimerCancel p in
  if mSocket p then
    if win32 then emit SocketClose p
    else
      let p := emit SocketCancel p in
      if cancelThrows then p else emit SocketClose p
  else p.

(** ** Frame header *)

(** [TCPPeer::getIncomingMsgLength]: the decoded length and the object
    after the call. *)
Definition getIncomingMsgLength (p : TCPPeer) : Z * TCPPeer :=
  let length := at_ (mIncomingHeader p) 0 in
  let length := int_and length 0x7f in
  let length := int_shl length 8 in
  let length := int_or length (at_ (mIncomingHeader p) 1) in
  let length := int_shl length 8 in
  let length := int_or length (at_ (mIncomingHeader p) 2) in
  let length := int_shl length 8 in
  let length := int_or length (at_ (mIncomingHeader p) 3) in
  if (length <? 0) || (length >? MAX_MESSAGE_SIZE) then
    let p := emit (Mark ErrorRead 1) p in
    (length, drop p)
  else (length, p).

(** ** Idle watchdog *)

(** [TCPPeer::startIdleTimer]. *)
Definition startIdleTimer (p : TCPPeer) : TCPPeer :=
  if shouldAbort p then p
  else emit (TimerArm IO_TIMEOUT_SECONDS) p.

Section Clock.

(** The period of [VirtualClock] is fixed in [util/Timer.h], outside the
    translated sources: time points are counted in clock ticks, and
    [std::chrono::seconds(n)] is [n * ticksPerSecond] ticks. *)
Variable ticksPerSecond : Z.

Definition seconds (n : Z) : Z := n * ticksPerSecond.

(** [TCPPeer::idleTimerExpired]; [now] is the clock reading taken inside
    the handler. *)
Definition idleTimerExpired (error : bool) (now : Z) (p : TCPPeer)
  : TCPPeer :=
  if negb error then
    if now - mLastRead p >? seconds IO_TIMEOUT_SECONDS then
      drop (emit (Mark TimeoutRead 1) p)
    else if now - mLastWrite p >? seconds IO_TIMEOUT_SECONDS then
      drop (emit (Mark TimeoutWrite 1) p)
    else startIdleTimer p
  else p.

End Clock.

(** ** Write pipeline *)

(** [TCPPeer::messageSender]. *)
Definition messageSender (now : Z) (p : TCPPeer) : TCPPeer :=
  match mWriteQueue p with
  | [] => p
  | buf :: _ =>
      let p := set_mLastWrite now p in
      emit (AsyncWrite buf) p
  end.

(** [TCPPeer::sendMessage]. *)
Definition sendMessage (now : Z) (xdrBytes : Frame) (p : TCPPeer)
  : TCPPeer :=
  let wasEmpty := match mWriteQueue p with [] => true | _ => false end in
  let p := set_mWriteQueue (mWriteQueue p ++ [xdrBytes]) p in
  if wasEmpty then messageSender now p else p.

(** [TCPPeer::writeHandler]. *)
Definition writeHandler (error : bool) (bytes_transferred : Z)
  (p : TCPPeer) : TCPPeer :=
  if error then
    let p := if isConnected p then emit (Mark ErrorWrite 1) p else p in
    drop p
  else
    let p := emit (Mark MessageWrite 1) p in
    emit (Mark ByteWrite bytes_transferred) p.

(** The completion handler that [messageSender] hands to [async_write]:
    [writeHandler], then [mWriteQueue.pop()], then [messageSender]. *)
Definition writeCompletion (ec : bool) (length : Z) (now : Z)
  (p : TCPPeer) : TCPPeer :=
  let p := writeHandler ec length p in
  let p := set_mWriteQueue (tl (mWriteQueue p)) p in
  messageSender now p.

(** ** Read pipeline *)

(** [TCPPeer::startRead].  The [assert] on the header buffer is not
    modelled (it is compiled out of release builds); [throws] says
    whether the [try] block raises [asio::system_error], which can only
    come from the [async_read] call. *)
Definition startRead (throws : bool) (now : Z) (p : TCPPeer) : TCPPeer :=
  if shouldAbort p then p
  else
    let p := set_mLastRead now p in
    let p := set_mIncomingHeader (resize 4 (mIncomingHeader p)) p in
    if throws then drop p
    else emit (AsyncReadHeader (Z.of_nat (length (mIncomingHeader p)))) p.

(** [TCPPeer::readHeaderHandler]. *)
Definition readHeaderHandler (error : bool) (bytes_transferred : Z)
  (p : TCPPeer) : TCPPeer :=
  if negb error then
    let p := emit (Mark ByteRead bytes_transferred) p in
    let '(n, p) := getIncomingMsgLength p in
    let p := set_mIncomingBody (resize (Z.to_nat n) (mIncomingBody p)) p in
    emit (AsyncReadBody (Z.of_nat (length (mIncomingBody p)))) p
  else
    let p := if isConnected p then emit (Mark ErrorRead 1) p else p in
    drop p.

(** [TCPPeer::recvMessage].  [corrupt] says whether unmarshalling raises
    [xdr::xdr_runtime_error]; [authenticated] is [isAuthenticated()],
    which picks the schema the sink is called with. *)
Definition recvMessage (corrupt authenticated : bool) (p : TCPPeer)
  : TCPPeer :=
  let p := emit (Mark MessageRead 1) p in
  if corrupt then drop p
  else emit (Deliver (mIncomingBody p) authenticated) p.

(** [TCPPeer::readBodyHandler]. *)
Definition readBodyHandler (error : bool) (bytes_transferred : Z)
  (corrupt authenticated throws : bool) (now : Z) (p : TCPPeer)
  : TCPPeer :=
  if negb error then
    let p := emit (Mark ByteRead bytes_transferred) p in
    let p := recvMessage corrupt authenticated p in
    startRead throws now p
  else
    let p := if isConnected p then emit (Mark ErrorRead 1) p else p in
    drop p.

(** What [async_read] leaves in a buffer of fixed size when [received]
    bytes have arrived. *)
Definition fill (received v : list byte) : list byte :=
  firstn (length v) received ++ skipn (length received) v.

(** The completion handler [startRead] hands to [async_read]. *)
Definition headerCompletion (ec : bool) (length : Z)
  (received : list byte) (p : TCPPeer) : TCPPeer :=
  let p := set_mIncomingHeader (fill received (mIncomingHeader p)) p in
  readHeaderHandler ec length p.

(** The completion handler [readHeaderHandler] hands to [async_read]:
    [mIncomingHeader.clear()], then [readBodyHandler]. *)
Definition bodyCompletion (ec : bool) (length : Z) (received : list byte)
  (corrupt authenticated throws : bool) (now : Z) (p : TCPPeer)
  : TCPPeer :=
  let p := set_mIncomingBody (fill received (mIncomingBody p)) p in
  let p := set_mIncomingHeader [] p in
  readBodyHandler ec length corrupt authenticated throws now p.

(** ** Construction *)

(** Modelled from the spec: the initial [mState] is set by the [Peer]
    base-class constructor in [Peer.cpp]; the spec has an Initiator
    start in Connecting and an Acceptor in Connected. *)
Definition initialState (role : PeerRole) : PeerState :=
  match role with
  | WE_CALLED_REMOTE => CONNECTING
  | REMOTE_CALLED_US => CONNECTED
  end.

(** [TCPPeer::TCPPeer]: both timestamps start at the clock reading. *)
Definition construct (role : PeerRole) (now : Z) : TCPPeer :=
  mkTCPPeer role (initialState role) true now now [] [] [] [].

(** [TCPPeer::initiate]. *)
Definition initiate (now : Z) : TCPPeer :=
  emit AsyncConnect (construct WE_CALLED_REMOTE now).

(** [TCPPeer::accept]. *)
Definition accept (throws : bool) (now : Z) : TCPPeer :=
  startRead throws now (construct REMOTE_CALLED_US now).

(** [TCPPeer::connected]. *)
Definition connected (throws : bool) (now : Z) (p : TCPPeer) : TCPPeer :=
  startRead throws now p.

(** ** The connection as a reactive system *)

(** What can happen to a live connection: a call from outside or the
    completion of an asynchronous operation, with the data the
    environment supplies. *)
Inductive Event : Type :=
| EvSendMessage (xdrBytes : Frame)
| EvWriteDone (ec : bool) (length : Z)
| EvHeaderDone (ec : bool) (length : Z) (received : list byte)
| EvBodyDone (ec : bool) (length : Z) (received : list byte)
    (corrupt authenticated throws : bool)
| EvTimer (ec : bool)
| EvConnected (throws : bool)
| EvDrop.

(** Frames handed to [async_write], oldest first. *)
Fixpoint writes (t : list Effect) : list Frame :=
  match t with
  | [] => []
  | AsyncWrite f :: t' => f :: writes t'
  | _ :: t' => writes t'
  end.

(** Number of calls of a given kind in a trace. *)
Definition is_close (e : Effect) : bool :=
  match e with SocketClose => true | _ => false end.

Definition is_dropPeer (e : Effect) : bool :=
  match e with DropPeer => true | _ => false end.

Definition is_timerArm (e : Effect) : bool :=
  match e with TimerArm _ => true | _ => false end.

Definition is_readBody (e : Effect) : bool :=
  match e with AsyncReadBody _ => true | _ => false end.

Definition calls (k : Effect -> bool) (t : list Effect) : nat :=
  length (filter k t).

(** A connection together with the number of write completions the
    environment has delivered so far. *)
Record Conn : Type := mkConn {
  peer : TCPPeer;
  completedWrites : nat
}.

Definition outstandingWrites (c : Conn) : nat :=
  (length (writes (trace (peer c))) - completedWrites c)%nat.

Section System.

Variable ticksPerSecond : Z.

(** One event at clock reading [now].  A write completion can only be
    delivered for a write that is outstanding. *)
Definition step (now : Z) (e : Event) (c : Conn) : option Conn :=
  let p := peer c in
  let k := completedWrites c in
  match e with
  | EvSendMessage f => Some (mkConn (sendMessage now f p) k)
  | EvWriteDone ec n =>
      if (0 <? outstandingWrites c)%nat
      then Some (mkConn (writeCompletion ec n now p) (S k))
      else None
  | EvHeaderDone ec n r => Some (mkConn (headerCompletion ec n r p) k)
  | EvBodyDone ec n r corrupt auth throws =>
      Some (mkConn (bodyCompletion ec n r corrupt auth throws now p) k)
  | EvTimer ec => Some (mkConn (idleTimerExpired ticksPerSecond ec now p) k)
  | EvConnected throws => Some (mkConn (connected throws now p) k)
  | EvDrop => Some (mkConn (drop p) k)
  end.

Fixpoint run (c : Conn) (evs : list (Z * Event)) : option Conn :=
  match evs with
  | [] => Some c
  | (now, e) :: evs' =>
      match step now e c with
      | Some c' => run c' evs'
      | None => None
      end
  end.

End System.

(** A connection as its factory function returns it. *)
Definition create (role : PeerRole) (throws : bool) (now : Z) : Conn :=
  match role with
  | WE_CALLED_REMOTE => mkConn (initiate now) 0
  | REMOTE_CALLED_US => mkConn (accept throws now) 0
  end.

(** Frames passed to [sendMessage] by a schedule, in call order. *)
Fixpoint enqueued (evs : list (Z * Event)) : list Frame :=
  match evs with
  | [] => []
  | (_, EvSendMessage f) :: evs' => f :: enqueued evs'
  | _ :: evs' => enqueued evs'
  end.

(** The 4-byte big-endian header for a body of [L] bytes.  Outbound
    frames are marshalled by the serialization library, so this is the
    wire format the decoder is checked against, not a function of
    [TCPPeer]. *)
Definition encodeHeader (L : Z) : list byte :=
  [ byte_of_Z (Z.shiftr L 24); byte_of_Z (Z.shiftr L 16);
    byte_of_Z (Z.shiftr L 8); byte_of_Z L ].

(** The number the four header bytes stand for, read big-endian, once
    the top bit is cleared. *)
Definition headerValue (h : list byte) : Z :=
  ((at_ h 0 mod 128) * 256 + at_ h 1) * 65536 + at_ h 2 * 256 + at_ h 3.

(** The teardown body has run exactly as often as the state says: once
    when the state is [CLOSING], never otherwise. *)
Definition tornDownOnce (p : TCPPeer) : Prop :=
  calls is_dropPeer (trace p) = Nat.b2n (is_closing (mState p)) /\
  calls is_close (trace p) = Nat.b2n (is_closing (mState p)).

Definition is_readHeader (e : Effect) : bool :=
  match e with AsyncReadHeader _ => true | _ => false end.

(** The connection is [CLOSING] and has issued [a] header reads and
    armed the timer [b] times so far. *)
Definition closedWith (a b : nat) (p : TCPPeer) : Prop :=
  mState p = CLOSING /\
  calls is_readHeader (trace p) = a /\
  calls is_timerArm (trace p) = b.

(** What [drop] appends to the trace. *)
Definition teardownCalls (p : TCPPeer) : list Effect :=
  if is_closing (mState p) then []
  else [TimerCancel; DropPeer; SocketClose].

(** [q] has the write side of [p]: the same queue, the same
    [mLastWrite], and the same writes handed to the stream. *)
Definition sameWriteSide (p q : TCPPeer) : Prop :=
  mWriteQueue q = mWriteQueue p /\
  mLastWrite q = mLastWrite p /\
  writes (trace q) = writes (trace p).

(** The write pipeline's invariant, for a connection that was handed
    the frames [E] so far: the writes issued are the frames [D] whose
    completion has been observed, followed by the front of the queue
    if there is one; [D] followed by the queue is [E]. *)
Definition writeInv (E : list Frame) (c : Conn) : Prop :=
  exists D : list Frame,
    writes (trace (peer c)) = D ++ firstn 1 (mWriteQueue (peer c)) /\
    E = D ++ mWriteQueue (peer c) /\
    length D = completedWrites c.

Definition is_deliver (e : Effect) : bool :=
  match e with Deliver _ _ => true | _ => false end.

(** Body completions of a schedule that reach the sink: the read
    succeeded and the payload unmarshals. *)
Fixpoint dispatched (evs : list (Z * Event)) : nat :=
  match evs with
  | [] => 0
  | (_, EvBodyDone false _ _ false _ _) :: evs' => S (dispatched evs')
  | _ :: evs' => dispatched evs'
  end.

(** The clock readings of a schedule never go back, starting from [t]. *)
Fixpoint nondecreasing (t : Z) (evs : list (Z * Event)) : bool :=
  match evs with
  | [] => true
  | (now, _) :: evs' => (t <=? now) && nondecreasing now evs'
  end.

(** The clock reading of the last event, [t] if there is none. *)
Fixpoint lastTime (t : Z) (evs : list (Z * Event)) : Z :=
  match evs with
  | [] => t
  | (now, _) :: evs' => lastTime now evs'
  end.

(** Both timestamps lie between [lo] and [hi]. *)
Definition stampedWithin (lo hi : Z) (p : TCPPeer) : Prop :=
  lo <= mLastRead p <= hi /\ lo <= mLastWrite p <= hi.

(** * Properties *)

(** ** Bytes and 32-bit arithmetic *)

Lemma u8_range (b : byte) : 0 <= u8 b < 256.
Proof.
  unfold u8. pose proof (Byte.to_N_bounded b). lia.
Qed.

Lemma u8_byte_of_Z (z : Z) : u8 (byte_of_Z z) = z mod 256.
Proof.
  unfold u8, byte_of_Z.
  pose proof (Z.mod_pos_bound z 256 ltac:(lia)) as Hr.
  destruct (Byte.of_N (Z.to_N (z mod 256))) as [b|] eqn:E.
  - apply Byte.to_of_N in E. rewrite E. lia.
  - apply Byte.of_N_None_iff in E. lia.
Qed.

Lemma int32_small (z : Z) : - 2 ^ 31 <= z < 2 ^ 31 -> int32 z = z.
Proof.
  intros H. unfold int32. rewrite Z.mod_small; lia.
Qed.

Lemma land_shiftl_low (a b : Z) :
  0 <= b < 2 ^ 8 -> Z.land (Z.shiftl a 8) b = 0.
Proof.
  intros Hb. apply Z.bits_inj'. intros n Hn.
  rewrite Z.land_spec, Z.bits_0.
  destruct (Z.ltb_spec n 8) as [Hlt|Hge].
  - rewrite Z.shiftl_spec_low by lia. reflexivity.
  - rewrite <- (Z.mod_small b (2 ^ 8)) by lia.
    rewrite Z.mod_pow2_bits_high by lia. apply andb_false_r.
Qed.

Lemma lor_shiftl_add (a b : Z) :
  0 <= b < 2 ^ 8 -> Z.lor (Z.shiftl a 8) b = a * 256 + b.
Proof.
  intros Hb.
  rewrite <- Z.lxor_lor by (apply land_shiftl_low; exact Hb).
  rewrite <- Z.add_nocarry_lxor by (apply land_shiftl_low; exact Hb).
  rewrite Z.shiftl_mul_pow2 by lia. reflexivity.
Qed.

Lemma land_0x7f (a : Z) : Z.land a 0x7f = a mod 128.
Proof.
  change 0x7f with (Z.ones 7). rewrite Z.land_ones by lia. reflexivity.
Qed.

(** One step of the accumulation in [getIncomingMsgLength], as long as
    the accumulated value still fits 23 bits. *)
Lemma int_or_shl (a b : Z) :
  0 <= a < 2 ^ 23 -> 0 <= b < 2 ^ 8 ->
  int_or (int_shl a 8) b = a * 256 + b.
Proof.
  intros Ha Hb. unfold int_or, int_shl.
  rewrite (int32_small (Z.shiftl a 8))
    by (rewrite Z.shiftl_mul_pow2 by lia; lia).
  rewrite lor_shiftl_add by exact Hb.
  apply int32_small. lia.
Qed.

Lemma at_range (h : list byte) (i : nat) : 0 <= at_ h i < 256.
Proof. apply u8_range. Qed.

Lemma headerValue_range (h : list byte) : 0 <= headerValue h < 2 ^ 31.
Proof.
  unfold headerValue.
  pose proof (at_range h 0). pose proof (at_range h 1).
  pose proof (at_range h 2). pose proof (at_range h 3).
  pose proof (Z.mod_pos_bound (at_ h 0) 128 ltac:(lia)). lia.
Qed.

(** The [int] that [getIncomingMsgLength] accumulates never wraps. *)
Lemma decoded_int (h : list byte) :
  int_or (int_shl (int_or (int_shl (int_or (int_shl
    (int_and (at_ h 0) 0x7f) 8) (at_ h 1)) 8) (at_ h 2)) 8) (at_ h 3)
  = headerValue h.
Proof.
  pose proof (at_range h 0). pose proof (at_range h 1).
  pose proof (at_range h 2). pose proof (at_range h 3).
  pose proof (Z.mod_pos_bound (at_ h 0) 128 ltac:(lia)).
  unfold int_and. rewrite land_0x7f.
  rewrite (int32_small (at_ h 0 mod 128)) by lia.
  rewrite (int_or_shl (at_ h 0 mod 128) (at_ h 1)) by lia.
  rewrite (int_or_shl (at_ h 0 mod 128 * 256 + at_ h 1)) by lia.
  rewrite int_or_shl by lia.
  unfold headerValue. lia.
Qed.

Lemma getIncomingMsgLength_eq (p : TCPPeer) :
  getIncomingMsgLength p =
  ( headerValue (mIncomingHeader p),
    if headerValue (mIncomingHeader p) >? MAX_MESSAGE_SIZE
    then drop (emit (Mark ErrorRead 1) p) else p ).
Proof.
  unfold getIncomingMsgLength. cbv zeta. rewrite decoded_int.
  pose proof (headerValue_range (mIncomingHeader p)) as Hr.
  destruct (Z.ltb_spec (headerValue (mIncomingHeader p)) 0); [lia|].
  cbn [orb].
  destruct (headerValue (mIncomingHeader p) >? MAX_MESSAGE_SIZE);
    reflexivity.
Qed.

Lemma headerValue_encodeHeader (L : Z) :
  0 <= L < 2 ^ 31 -> headerValue (encodeHeader L) = L.
Proof.
  intros HL. unfold headerValue, encodeHeader, at_. cbn [nth].
  rewrite !u8_byte_of_Z, !Z.shiftr_div_pow2 by lia.
  change (2 ^ 24) with 16777216. change (2 ^ 16) with 65536.
  change (2 ^ 8) with 256. change (2 ^ 31) with 2147483648 in HL.
  Z.to_euclidean_division_equations. lia.
Qed.

(** ** Traces *)

Lemma calls_app (k : Effect -> bool) (t u : list Effect) :
  calls k (t ++ u) = (calls k t + calls k u)%nat.
Proof. unfold calls. rewrite filter_app, length_app. reflexivity. Qed.

Lemma calls_snoc (k : Effect -> bool) (t : list Effect) (e : Effect) :
  calls k (t ++ [e]) = (calls k t + Nat.b2n (k e))%nat.
Proof.
  unfold calls. rewrite filter_app, length_app. cbn [filter].
  destruct (k e); reflexivity.
Qed.

Lemma writes_app (t u : list Effect) :
  writes (t ++ u) = writes t ++ writes u.
Proof.
  induction t as [|e t IH]; [reflexivity|].
  destruct e; cbn [app writes]; rewrite ?IH; reflexivity.
Qed.

Lemma length_resize (n : nat) (v : list byte) : length (resize n v) = n.
Proof.
  unfold resize. rewrite length_app, length_firstn, repeat_length. lia.
Qed.

Lemma trace_emit (e : Effect) (p : TCPPeer) :
  trace (emit e p) = trace p ++ [e].
Proof. reflexivity. Qed.

Lemma mState_emit (e : Effect) (p : TCPPeer) :
  mState (emit e p) = mState p.
Proof. reflexivity. Qed.

(** ** Teardown *)

Lemma trace_drop (p : TCPPeer) :
  trace (drop p) = trace p ++ teardownCalls p.
Proof.
  unfold drop, teardownCalls.
  destruct (is_closing (mState p)).
  - rewrite app_nil_r. reflexivity.
  - cbv zeta. rewrite !trace_emit, <- !app_assoc. reflexivity.
Qed.

Lemma drop_closing (p : TCPPeer) : mState (drop p) = CLOSING.
Proof.
  unfold drop. destruct (mState p) eqn:E; cbn; rewrite ?E; reflexivity.
Qed.

Lemma drop_when_closing (p : TCPPeer) : mState p = CLOSING -> drop p = p.
Proof.
  intros E. unfold drop. rewrite E. reflexivity.
Qed.

Lemma drop_when_open (p : TCPPeer) :
  mState p <> CLOSING ->
  trace (drop p) = trace p ++ [TimerCancel; DropPeer; SocketClose].
Proof.
  intros E. unfold drop.
  destruct (mState p); [| |contradiction]; cbn;
    rewrite <- !app_assoc; reflexivity.
Qed.

Lemma drop_drop (p : TCPPeer) : drop (drop p) = drop p.
Proof. apply drop_when_closing, drop_closing. Qed.

Lemma iter_drop (n : nat) (p : TCPPeer) :
  Nat.iter (S n) drop p = drop p.
Proof.
  induction n as [|n IH]; [reflexivity|].
  change (Nat.iter (S (S n)) drop p) with (drop (Nat.iter (S n) drop p)).
  rewrite IH. apply drop_drop.
Qed.

(** ** Properties every handler preserves

    Each handler is a composition of a few primitive updates.  A
    predicate that those updates preserve is preserved by every handler
    built from them, hence by every event and every schedule. *)

Section Preservation.

Variable P : TCPPeer -> Prop.

Hypothesis P_mark : forall m n p, P p -> P (emit (Mark m n) p).
Hypothesis P_deliver : forall b a p, P p -> P (emit (Deliver b a) p).
Hypothesis P_readBody : forall n p, P p -> P (emit (AsyncReadBody n) p).
Hypothesis P_write : forall f p, P p -> P (emit (AsyncWrite f) p).
Hypothesis P_mLastWrite : forall v p, P p -> P (set_mLastWrite v p).
Hypothesis P_mWriteQueue : forall v p, P p -> P (set_mWriteQueue v p).
Hypothesis P_mIncomingHeader :
  forall v p, P p -> P (set_mIncomingHeader v p).
Hypothesis P_mIncomingBody : forall v p, P p -> P (set_mIncomingBody v p).
Hypothesis P_drop : forall p, P p -> P (drop p).
Hypothesis P_startRead : forall th now p, P p -> P (startRead th now p).
Hypothesis P_startIdleTimer : forall p, P p -> P (startIdleTimer p).

Lemma errorMark_preserves (m : Meter) (p : TCPPeer) :
  P p -> P (if isConnected p then emit (Mark m 1) p else p).
Proof.
  intros H. destruct (isConnected p); [apply P_mark|]; exact H.
Qed.

Lemma getIncomingMsgLength_preserves (p : TCPPeer) :
  P p -> P (snd (getIncomingMsgLength p)).
Proof.
  intros H. rewrite getIncomingMsgLength_eq. cbn [snd].
  destruct (_ >? _); [apply P_drop, P_mark|]; exact H.
Qed.

Lemma messageSender_preserves now (p : TCPPeer) :
  P p -> P (messageSender now p).
Proof.
  intros H. unfold messageSender.
  destruct (mWriteQueue p); [exact H|]. apply P_write, P_mLastWrite, H.
Qed.

Lemma sendMessage_preserves now f (p : TCPPeer) :
  P p -> P (sendMessage now f p).
Proof.
  intros H. unfold sendMessage. cbv zeta.
  destruct (mWriteQueue p);
    [apply messageSender_preserves|]; apply P_mWriteQueue, H.
Qed.

Lemma writeHandler_preserves ec n (p : TCPPeer) :
  P p -> P (writeHandler ec n p).
Proof.
  intros H. unfold writeHandler. destruct ec.
  - apply P_drop, errorMark_preserves, H.
  - apply P_mark, P_mark, H.
Qed.

Lemma writeCompletion_preserves ec n now (p : TCPPeer) :
  P p -> P (writeCompletion ec n now p).
Proof.
  intros H. unfold writeCompletion. cbv zeta.
  apply messageSender_preserves, P_mWriteQueue, writeHandler_preserves, H.
Qed.

Lemma readHeaderHandler_preserves ec n (p : TCPPeer) :
  P p -> P (readHeaderHandler ec n p).
Proof.
  intros H. unfold readHeaderHandler. destruct ec; cbn [negb].
  - apply P_drop, errorMark_preserves, H.
  - cbv zeta.
    pose proof (getIncomingMsgLength_preserves (emit (Mark ByteRead n) p)
                  (P_mark _ _ _ H)) as H'.
    destruct (getIncomingMsgLength (emit (Mark ByteRead n) p)) as [len q].
    apply P_readBody, P_mIncomingBody, H'.
Qed.

Lemma headerCompletion_preserves ec n r (p : TCPPeer) :
  P p -> P (headerCompletion ec n r p).
Proof.
  intros H. unfold headerCompletion. cbv zeta.
  apply readHeaderHandler_preserves, P_mIncomingHeader, H.
Qed.

Lemma recvMessage_preserves c a (p : TCPPeer) :
  P p -> P (recvMessage c a p).
Proof.
  intros H. unfold recvMessage. cbv zeta.
  destruct c; [apply P_drop|apply P_deliver]; apply P_mark, H.
Qed.

Lemma readBodyHandler_preserves ec n c a th now (p : TCPPeer) :
  P p -> P (readBodyHandler ec n c a th now p).
Proof.
  intros H. unfold readBodyHandler. destruct ec; cbn [negb].
  - apply P_drop, errorMark_preserves, H.
  - cbv zeta. apply P_startRead, recvMessage_preserves, P_mark, H.
Qed.

Lemma bodyCompletion_preserves ec n r c a th now (p : TCPPeer) :
  P p -> P (bodyCompletion ec n r c a th now p).
Proof.
  intros H. unfold bodyCompletion. cbv zeta.
  apply readBodyHandler_preserves, P_mIncomingHeader, P_mIncomingBody, H.
Qed.

Lemma idleTimerExpired_preserves tps ec now (p : TCPPeer) :
  P p -> P (idleTimerExpired tps ec now p).
Proof.
  intros H. unfold idleTimerExpired. destruct ec; cbn [negb]; [exact H|].
  destruct (_ >? _); [apply P_drop, P_mark, H|].
  destruct (_ >? _); [apply P_drop, P_mark, H|].
  apply P_startIdleTimer, H.
Qed.

Lemma step_preserves tps now e (c c' : Conn) :
  step tps now e c = Some c' -> P (peer c) -> P (peer c').
Proof.
  intros Hs H. destruct e; cbn [step] in Hs;
    try (destruct (0 <? outstandingWrites c)%nat; [|discriminate]);
    injection Hs as <-; cbn [peer].
  - apply sendMessage_preserves, H.
  - apply writeCompletion_preserves, H.
  - apply headerCompletion_preserves, H.
  - apply bodyCompletion_preserves, H.
  - apply idleTimerExpired_preserves, H.
  - apply P_startRead, H.
  - apply P_drop, H.
Qed.

Lemma run_preserves tps evs : forall (c c' : Conn),
  run tps c evs = Some c' -> P (peer c) -> P (peer c').
Proof.
  induction evs as [|[now e] evs IH]; intros c c' Hr H; cbn [run] in Hr.
  - injection Hr as <-. exact H.
  - destruct (step tps now e c) as [c1|] eqn:Hs; [|discriminate].
    eapply IH; [exact Hr|]. eapply step_preserves; eauto.
Qed.

End Preservation.

(** ** [tornDownOnce] is an invariant *)

Lemma emit_tornDownOnce (e : Effect) (p : TCPPeer) :
  is_dropPeer e = false -> is_close e = false ->
  tornDownOnce p -> tornDownOnce (emit e p).
Proof.
  intros Hd Hc [H1 H2]. unfold tornDownOnce, emit. cbn [trace mState].
  rewrite !calls_snoc, Hd, Hc. cbn [Nat.b2n]. lia.
Qed.

Lemma drop_tornDownOnce (p : TCPPeer) :
  tornDownOnce p -> tornDownOnce (drop p).
Proof.
  intros [H1 H2]. unfold tornDownOnce, drop.
  destruct (mState p) eqn:E; cbn [is_closing trace mState emit set_mState];
    rewrite ?E, ?calls_snoc; cbn [is_closing is_dropPeer is_close Nat.b2n] in *;
    lia.
Qed.

Lemma startRead_tornDownOnce th now (p : TCPPeer) :
  tornDownOnce p -> tornDownOnce (startRead th now p).
Proof.
  intros H. unfold startRead. destruct (shouldAbort p); [exact H|].
  cbv zeta. destruct th.
  - apply drop_tornDownOnce. exact H.
  - apply emit_tornDownOnce; [reflexivity | reflexivity | exact H].
Qed.

Lemma startIdleTimer_tornDownOnce (p : TCPPeer) :
  tornDownOnce p -> tornDownOnce (startIdleTimer p).
Proof.
  intros H. unfold startIdleTimer. destruct (shouldAbort p); [exact H|].
  apply emit_tornDownOnce; [reflexivity | reflexivity | exact H].
Qed.

Lemma run_tornDownOnce tps evs (c c' : Conn) :
  run tps c evs = Some c' ->
  tornDownOnce (peer c) -> tornDownOnce (peer c').
Proof.
  apply run_preserves;
    try (intros; apply emit_tornDownOnce; [reflexivity | reflexivity | assumption]);
    try (intros ? ? H; exact H).
  - apply drop_tornDownOnce.
  - apply startRead_tornDownOnce.
  - apply startIdleTimer_tornDownOnce.
Qed.

Lemma create_tornDownOnce role th now :
  tornDownOnce (peer (create role th now)).
Proof.
  destruct role; cbn [create peer].
  - unfold initiate. apply emit_tornDownOnce; try reflexivity.
    split; reflexivity.
  - unfold accept. apply startRead_tornDownOnce. split; reflexivity.
Qed.

(** ** Header decoding *)

(** What a successful header completion does, whatever the header
    holds: the length is decoded (which tears the connection down when
    it is out of bounds), and then the body buffer is resized to the
    decoded length and a read of that many bytes is issued. *)
Lemma readHeaderHandler_success (n : Z) (p : TCPPeer) :
  let len := headerValue (mIncomingHeader p) in
  let q := snd (getIncomingMsgLength (emit (Mark ByteRead n) p)) in
  readHeaderHandler false n p =
  emit (AsyncReadBody len)
       (set_mIncomingBody (resize (Z.to_nat len) (mIncomingBody q)) q).
Proof.
  cbv zeta. unfold readHeaderHandler. cbn [negb]. cbv zeta.
  rewrite getIncomingMsgLength_eq. cbn [snd].
  change (mIncomingHeader (emit (Mark ByteRead n) p))
    with (mIncomingHeader p).
  set (len := headerValue (mIncomingHeader p)).
  set (q := if len >? MAX_MESSAGE_SIZE then _ else _).
  change (mIncomingBody (set_mIncomingBody (resize (Z.to_nat len)
            (mIncomingBody q)) q))
    with (resize (Z.to_nat len) (mIncomingBody q)).
  rewrite length_resize, Z2Nat.id; [reflexivity|].
  apply headerValue_range.
Qed.

Lemma mIncomingBody_emit (e : Effect) (p : TCPPeer) :
  mIncomingBody (emit e p) = mIncomingBody p.
Proof. reflexivity. Qed.

Lemma trace_set_mIncomingBody (v : list byte) (p : TCPPeer) :
  trace (set_mIncomingBody v p) = trace p.
Proof. reflexivity. Qed.

Lemma mState_set_mIncomingBody (v : list byte) (p : TCPPeer) :
  mState (set_mIncomingBody v p) = mState p.
Proof. reflexivity. Qed.

Lemma mIncomingBody_set_mIncomingBody (v : list byte) (p : TCPPeer) :
  mIncomingBody (set_mIncomingBody v p) = v.
Proof. reflexivity. Qed.

Lemma readHeaderHandler_trace (n : Z) (p : TCPPeer) :
  trace (readHeaderHandler false n p) =
  trace (snd (getIncomingMsgLength (emit (Mark ByteRead n) p)))
  ++ [AsyncReadBody (headerValue (mIncomingHeader p))].
Proof.
  pose proof (readHeaderHandler_success n p) as H. cbv zeta in H.
  rewrite H, trace_emit, trace_set_mIncomingBody. reflexivity.
Qed.

Lemma readHeaderHandler_mState (n : Z) (p : TCPPeer) :
  mState (readHeaderHandler false n p) =
  mState (snd (getIncomingMsgLength (emit (Mark ByteRead n) p))).
Proof.
  pose proof (readHeaderHandler_success n p) as H. cbv zeta in H.
  rewrite H, mState_emit, mState_set_mIncomingBody. reflexivity.
Qed.

Lemma readHeaderHandler_body_size (n : Z) (p : TCPPeer) :
  length (mIncomingBody (readHeaderHandler false n p)) =
  Z.to_nat (headerValue (mIncomingHeader p)).
Proof.
  pose proof (readHeaderHandler_success n p) as H. cbv zeta in H.
  rewrite H, mIncomingBody_emit, mIncomingBody_set_mIncomingBody.
  apply length_resize.
Qed.

(** Every header whose masked length is above the bound takes the same
    path: error mark, teardown, and then the resize and the body read
    all the same. *)
Lemma oversize_header_reads_body (n : Z) (p : TCPPeer) :
  headerValue (mIncomingHeader p) > MAX_MESSAGE_SIZE ->
  let q := readHeaderHandler false n p in
  mState q = CLOSING /\
  trace q = trace p ++ [Mark ByteRead n; Mark ErrorRead 1]
            ++ teardownCalls p
            ++ [AsyncReadBody (headerValue (mIncomingHeader p))] /\
  calls is_readBody (trace q) = S (calls is_readBody (trace p)) /\
  length (mIncomingBody q) = Z.to_nat (headerValue (mIncomingHeader p)).
Proof.
  intros Hbig. cbv zeta.
  assert (Hq : snd (getIncomingMsgLength (emit (Mark ByteRead n) p)) =
               drop (emit (Mark ErrorRead 1) (emit (Mark ByteRead n) p))).
  { rewrite getIncomingMsgLength_eq. cbn [snd].
    change (mIncomingHeader (emit (Mark ByteRead n) p))
      with (mIncomingHeader p).
    destruct (Z.gtb_spec (headerValue (mIncomingHeader p)) MAX_MESSAGE_SIZE);
      [reflexivity | lia]. }
  assert (Ht : trace (readHeaderHandler false n p) =
               trace p ++ [Mark ByteRead n; Mark ErrorRead 1]
               ++ teardownCalls p
               ++ [AsyncReadBody (headerValue (mIncomingHeader p))]).
  { rewrite readHeaderHandler_trace, Hq, trace_drop, !trace_emit.
    change (teardownCalls (emit (Mark ErrorRead 1) (emit (Mark ByteRead n) p)))
      with (teardownCalls p).
    rewrite <- !app_assoc. reflexivity. }
  split; [|split; [|split]].
  - rewrite readHeaderHandler_mState, Hq. apply drop_closing.
  - exact Ht.
  - rewrite Ht, !calls_app. unfold teardownCalls.
    destruct (is_closing (mState p)); cbn; lia.
  - apply readHeaderHandler_body_size.
Qed.

(** C1 (as the code behaves).  The header [FF FF FF FF] decodes to
    2,147,483,647, above [MAX_MESSAGE_SIZE].  The connection is torn
    down, but [readHeaderHandler] goes on: the body buffer is resized to
    2,147,483,647 bytes and a body read of that size is issued after the
    stream was closed. *)
Theorem oversize_header_still_allocates_and_reads :
  let p := headerCompletion false 4 [xff; xff; xff; xff] (accept false 0) in
  mState p = CLOSING /\
  trace p = [ AsyncReadHeader 4; Mark ByteRead 4; Mark ErrorRead 1;
              TimerCancel; DropPeer; SocketClose;
              AsyncReadBody 2147483647 ] /\
  length (mIncomingBody p) = Z.to_nat 2147483647.
Proof.
  cbv zeta. unfold headerCompletion. cbv zeta.
  set (p := set_mIncomingHeader _ _).
  split; [|split].
  - rewrite readHeaderHandler_mState. vm_compute. reflexivity.
  - rewrite readHeaderHandler_trace. vm_compute. reflexivity.
  - rewrite readHeaderHandler_body_size.
    apply f_equal. vm_compute. reflexivity.
Qed.

(** C6.  For every length [0 <= L <= 16,777,216], decoding the
    big-endian header of [L] returns exactly [L] and leaves the
    connection as it was: no error is counted and [drop] is not
    triggered. *)
Theorem header_round_trip (L : Z) (p : TCPPeer) :
  0 <= L <= MAX_MESSAGE_SIZE ->
  getIncomingMsgLength (set_mIncomingHeader (encodeHeader L) p) =
  (L, set_mIncomingHeader (encodeHeader L) p).
Proof.
  intros HL. unfold MAX_MESSAGE_SIZE in HL.
  rewrite getIncomingMsgLength_eq.
  change (mIncomingHeader (set_mIncomingHeader (encodeHeader L) p))
    with (encodeHeader L).
  rewrite headerValue_encodeHeader by lia.
  destruct (Z.gtb_spec L MAX_MESSAGE_SIZE) as [Hgt|_];
    [unfold MAX_MESSAGE_SIZE in Hgt; lia | reflexivity].
Qed.

Lemma header_round_trip_witness :
  0 <= 16777216 <= MAX_MESSAGE_SIZE /\
  getIncomingMsgLength
    (set_mIncomingHeader (encodeHeader 16777216) (accept false 0)) =
  (16777216, set_mIncomingHeader (encodeHeader 16777216) (accept false 0)).
Proof.
  split.
  - unfold MAX_MESSAGE_SIZE. lia.
  - apply (header_round_trip 16777216 (accept false 0)).
    unfold MAX_MESSAGE_SIZE. lia.
Defined.

(** The read cycle on a well-formed frame: header [00 00 00 05], body
    "hello", on an Acceptor that is not yet authenticated. *)
Example hello_frame_is_delivered :
  trace (bodyCompletion false 5 [x68; x65; x6c; x6c; x6f] false false false 7
          (headerCompletion false 4 [x00; x00; x00; x05] (accept false 0))) =
  [ AsyncReadHeader 4; Mark ByteRead 4; AsyncReadBody 5; Mark ByteRead 5;
    Mark MessageRead 1; Deliver [x68; x65; x6c; x6c; x6f] false;
    AsyncReadHeader 4 ].
Proof. vm_compute. reflexivity. Qed.

(** ** Teardown is idempotent *)

(** C2.  After any schedule of events on a freshly created connection,
    whatever has already triggered [drop] and however often: calling
    [drop] leaves the state [CLOSING] with exactly one deregistration
    call and exactly one stream-close call in the whole trace, and any
    number of further calls changes nothing. *)
Theorem drop_idempotent tps role th t0 evs (c : Conn) :
  run tps (create role th t0) evs = Some c ->
  let p := peer c in
  mState (drop p) = CLOSING /\
  calls is_dropPeer (trace (drop p)) = 1%nat /\
  calls is_close (trace (drop p)) = 1%nat /\
  (mState p <> CLOSING ->
   trace (drop p) = trace p ++ [TimerCancel; DropPeer; SocketClose]) /\
  (mState p = CLOSING -> drop p = p) /\
  forall n, Nat.iter (S n) drop p = drop p.
Proof.
  intros Hr p.
  assert (Hinv : tornDownOnce (drop p)).
  { apply drop_tornDownOnce.
    eapply run_tornDownOnce; [exact Hr | apply create_tornDownOnce]. }
  destruct Hinv as [Hd Hc]. rewrite drop_closing in Hd, Hc.
  repeat split.
  - apply drop_closing.
  - exact Hd.
  - exact Hc.
  - apply drop_when_open.
  - apply drop_when_closing.
  - intros n. apply iter_drop.
Qed.

Lemma drop_idempotent_witness :
  let evs := [ (1, EvSendMessage [x01]); (2, EvHeaderDone true 0 []);
               (2, EvWriteDone true 0); (31, EvTimer false); (32, EvDrop) ] in
  let p := drop (idleTimerExpired 1 false 31 (writeCompletion true 0 2
             (headerCompletion true 0 [] (sendMessage 1 [x01]
               (accept false 0))))) in
  run 1 (create REMOTE_CALLED_US false 0) evs = Some (mkConn p 1) /\
  calls is_dropPeer (trace (drop p)) = 1%nat /\
  calls is_close (trace (drop p)) = 1%nat /\
  Nat.iter 3 drop p = drop p.
Proof.
  intros evs p.
  assert (Hrun : run 1 (create REMOTE_CALLED_US false 0) evs
                 = Some (mkConn p 1)) by (vm_compute; reflexivity).
  pose proof (drop_idempotent 1 REMOTE_CALLED_US false 0 evs
                (mkConn p 1) Hrun) as H.
  cbv zeta in H. cbn [peer] in H.
  destruct H as (_ & Hd & Hc & _ & _ & Hn).
  split; [exact Hrun|]. split; [exact Hd|]. split; [exact Hc|].
  exact (Hn 2%nat).
Defined.

(** ** The stream-close call *)

Lemma mSocket_run tps evs (c c' : Conn) :
  run tps c evs = Some c' -> mSocket (peer c) = true ->
  mSocket (peer c') = true.
Proof.
  apply (run_preserves (fun p => mSocket p = true));
    try (intros; assumption).
  - intros p H. unfold drop. destruct (is_closing (mState p)); exact H.
  - intros th now p H. unfold startRead.
    destruct (shouldAbort p); [exact H|]. cbv zeta.
    destruct th; [|exact H].
    unfold drop. match goal with |- context [if ?b then _ else _] =>
      destruct b end; exact H.
  - intros p H. unfold startIdleTimer. destruct (shouldAbort p); exact H.
Qed.

Lemma mSocket_create role th now :
  mSocket (peer (create role th now)) = true.
Proof.
  destruct role; cbn [create peer]; [reflexivity|].
  unfold accept, startRead. cbn [shouldAbort construct mState initialState is_closing].
  cbv zeta. destruct th; reflexivity.
Qed.

Lemma destroy_closes (w ct : bool) (p : TCPPeer) :
  calls is_close (trace (destroy w ct p)) =
  (calls is_close (trace p) + Nat.b2n (mSocket p && (w || negb ct)))%nat.
Proof.
  unfold destroy. cbv zeta.
  change (mSocket (emit TimerCancel p)) with (mSocket p).
  destruct (mSocket p), w, ct; cbn [andb orb negb Nat.b2n];
    rewrite ?trace_emit, ?calls_snoc; cbn [is_close Nat.b2n]; lia.
Qed.

(** C8 (counterexample).  An Acceptor is dropped and then destroyed, in
    a build with [_WIN32] defined, where the destructor goes straight to
    [close]: the stream-close call is made twice, once by [drop] and
    once more by the destructor. *)
Lemma stream_closed_twice :
  run 1 (create REMOTE_CALLED_US false 0) [(1, EvDrop)] =
    Some (mkConn (drop (accept false 0)) 0) /\
  trace (destroy true false (drop (accept false 0))) =
    [ AsyncReadHeader 4; TimerCancel; DropPeer; SocketClose;
      TimerCancel; SocketClose ] /\
  calls is_close (trace (destroy true false (drop (accept false 0)))) = 2%nat.
Proof. repeat split; vm_compute; reflexivity. Qed.

(** C8 (amended).  Over any schedule of events on a freshly created
    connection, the stream-close call has been made exactly once if the
    state is [CLOSING] and not at all otherwise: [drop] closes the
    stream at entry to Closing, never before, never again.  The
    destructor then makes one more close call, whatever the state,
    unless [cancel] threw; a lifetime sees at most two close calls. *)
Theorem stream_close_calls tps role th t0 evs (c : Conn) (w ct : bool) :
  run tps (create role th t0) evs = Some c ->
  let p := peer c in
  calls is_close (trace p) = Nat.b2n (is_closing (mState p)) /\
  calls is_close (trace (destroy w ct p)) =
    (Nat.b2n (is_closing (mState p)) + Nat.b2n (w || negb ct))%nat /\
  (calls is_close (trace (destroy w ct p)) <= 2)%nat.
Proof.
  intros Hr p.
  assert (Hinv : tornDownOnce p).
  { eapply run_tornDownOnce; [exact Hr | apply create_tornDownOnce]. }
  assert (Hs : mSocket p = true).
  { eapply mSocket_run; [exact Hr | apply mSocket_create]. }
  destruct Hinv as [_ Hc].
  rewrite destroy_closes, Hs, Hc. cbn [andb].
  repeat split.
  destruct (is_closing (mState p)), (w || negb ct); cbn; lia.
Qed.

Lemma stream_close_calls_witness :
  let evs := [(5, EvConnected false); (9, EvDrop)] in
  let p := drop (connected false 5 (initiate 0)) in
  run 1 (create WE_CALLED_REMOTE false 0) evs = Some (mkConn p 0) /\
  calls is_close (trace p) = 1%nat /\
  calls is_close (trace (destroy false true p)) = 1%nat.
Proof.
  intros evs p.
  assert (Hrun : run 1 (create WE_CALLED_REMOTE false 0) evs
                 = Some (mkConn p 0)) by (vm_compute; reflexivity).
  pose proof (stream_close_calls 1 WE_CALLED_REMOTE false 0 evs
                (mkConn p 0) false true Hrun) as H.
  cbv zeta in H. cbn [peer] in H. destruct H as (H1 & H2 & _).
  split; [exact Hrun|]. split.
  - rewrite H1. vm_compute. reflexivity.
  - rewrite H2. vm_compute. reflexivity.
Defined.

(** ** The idle watchdog *)

Lemma startIdleTimer_closing (p : TCPPeer) :
  mState p = CLOSING -> startIdleTimer p = p.
Proof.
  intros E. unfold startIdleTimer, shouldAbort. rewrite E. reflexivity.
Qed.

Lemma startRead_closing th now (p : TCPPeer) :
  mState p = CLOSING -> startRead th now p = p.
Proof.
  intros E. unfold startRead, shouldAbort. rewrite E. reflexivity.
Qed.

(** C5 (counterexample).  A tick that arrives without a timer error
    after the connection was dropped, with both timestamps recent, does
    not re-arm the timer: the handler returns without doing anything. *)
Lemma tick_after_drop_does_not_rearm :
  let p := drop (accept false 0) in
  (10 - mLastRead p >? seconds 1 IO_TIMEOUT_SECONDS) = false /\
  (10 - mLastWrite p >? seconds 1 IO_TIMEOUT_SECONDS) = false /\
  idleTimerExpired 1 false 10 p = p /\
  calls is_timerArm (trace (idleTimerExpired 1 false 10 p)) = 0%nat.
Proof. repeat split; vm_compute; reflexivity. Qed.

(** C5 (amended).  On a tick without a timer error: if [now - mLastRead]
    exceeds the 30-second interval the read-timeout meter is marked and
    the connection dropped; otherwise, if [now - mLastWrite] exceeds it,
    the write-timeout meter is marked and the connection dropped;
    otherwise the timer is re-armed for one more interval, unless the
    connection is already [CLOSING], in which case nothing happens.  The
    teardown calls follow the mark only if the connection was not
    already [CLOSING]. *)
Theorem watchdog_tick tps now (p : TCPPeer) :
  let T := seconds tps IO_TIMEOUT_SECONDS in
  let q := idleTimerExpired tps false now p in
  (now - mLastRead p > T ->
     mState q = CLOSING /\
     trace q = trace p ++ Mark TimeoutRead 1 :: teardownCalls p) /\
  (now - mLastRead p <= T -> now - mLastWrite p > T ->
     mState q = CLOSING /\
     trace q = trace p ++ Mark TimeoutWrite 1 :: teardownCalls p) /\
  (now - mLastRead p <= T -> now - mLastWrite p <= T ->
     mState q = mState p /\
     trace q = trace p ++ (if is_closing (mState p) then []
                           else [TimerArm IO_TIMEOUT_SECONDS])).
Proof.
  cbv zeta. unfold idleTimerExpired. cbn [negb].
  destruct (Z.gtb_spec (now - mLastRead p) (seconds tps IO_TIMEOUT_SECONDS))
    as [Hr|Hr];
  [|destruct (Z.gtb_spec (now - mLastWrite p)
                (seconds tps IO_TIMEOUT_SECONDS)) as [Hw|Hw]];
  (split; [|split]); intros; try lia.
  - split; [apply drop_closing|].
    rewrite trace_drop, trace_emit, <- app_assoc. reflexivity.
  - split; [apply drop_closing|].
    rewrite trace_drop, trace_emit, <- app_assoc. reflexivity.
  - unfold startIdleTimer, shouldAbort.
    destruct (is_closing (mState p)).
    + rewrite app_nil_r. split; reflexivity.
    + split; reflexivity.
Qed.

Lemma watchdog_tick_witness :
  let p := sendMessage 20 [x01] (accept false 0) in
  31 - mLastRead p > seconds 1 IO_TIMEOUT_SECONDS /\
  mState (idleTimerExpired 1 false 31 p) = CLOSING /\
  trace (idleTimerExpired 1 false 31 p) =
    trace p ++ [Mark TimeoutRead 1; TimerCancel; DropPeer; SocketClose].
Proof.
  intros p.
  assert (H : 31 - mLastRead p > seconds 1 IO_TIMEOUT_SECONDS)
    by (vm_compute; reflexivity).
  split; [exact H|].
  exact (proj1 (watchdog_tick 1 31 p) H).
Defined.

(** ** Timestamps *)

Lemma mLastRead_drop (p : TCPPeer) : mLastRead (drop p) = mLastRead p.
Proof. unfold drop. destruct (is_closing (mState p)); reflexivity. Qed.

Lemma mLastRead_headerCompletion ec n r (p : TCPPeer) :
  mLastRead (headerCompletion ec n r p) = mLastRead p.
Proof.
  apply (headerCompletion_preserves (fun q => mLastRead q = mLastRead p));
    try (intros; assumption); try reflexivity.
  intros q H. rewrite mLastRead_drop. exact H.
Qed.

Lemma mLastRead_startRead th now (p : TCPPeer) :
  mLastRead (startRead th now p) =
  if shouldAbort p then mLastRead p else now.
Proof.
  unfold startRead. destruct (shouldAbort p); [reflexivity|].
  cbv zeta. destruct th; [rewrite mLastRead_drop|]; reflexivity.
Qed.

Lemma mLastRead_bodyCompletion ec n r c a th now (p : TCPPeer) :
  mLastRead (bodyCompletion ec n r c a th now p) =
  if ec || c || is_closing (mState p) then mLastRead p else now.
Proof.
  unfold bodyCompletion, readBodyHandler. cbv zeta.
  destruct ec; cbn [negb orb].
  - rewrite mLastRead_drop.
    match goal with |- context [if ?b then _ else _] => destruct b end;
      reflexivity.
  - rewrite mLastRead_startRead. unfold recvMessage, shouldAbort. cbv zeta.
    destruct c; cbn [orb].
    + rewrite drop_closing, mLastRead_drop. reflexivity.
    + rewrite !mState_emit. cbn [mState set_mIncomingHeader set_mIncomingBody
        mLastRead emit].
      destruct (is_closing (mState p)); reflexivity.
Qed.

Lemma drop_sameWriteSide (p q : TCPPeer) :
  sameWriteSide p q -> sameWriteSide p (drop q).
Proof.
  intros H. unfold drop. destruct (is_closing (mState q)); [exact H|].
  destruct H as (H1 & H2 & H3). unfold sameWriteSide. cbv zeta.
  rewrite !trace_emit, !writes_app.
  cbn [writes mWriteQueue mLastWrite emit set_mState trace].
  rewrite !app_nil_r. auto.
Qed.

Lemma emit_sameWriteSide (e : Effect) (p q : TCPPeer) :
  writes [e] = [] -> sameWriteSide p q -> sameWriteSide p (emit e q).
Proof.
  intros He (H1 & H2 & H3). unfold sameWriteSide.
  rewrite trace_emit, writes_app, He, app_nil_r. auto.
Qed.

Lemma writeHandler_sameWriteSide ec n (p : TCPPeer) :
  sameWriteSide p (writeHandler ec n p).
Proof.
  apply (writeHandler_preserves (sameWriteSide p)).
  - intros; apply emit_sameWriteSide; [reflexivity | assumption].
  - apply drop_sameWriteSide.
  - repeat split.
Qed.

Lemma mLastWrite_messageSender now (p : TCPPeer) :
  mLastWrite (messageSender now p) =
  match mWriteQueue p with [] => mLastWrite p | _ :: _ => now end.
Proof. unfold messageSender. destruct (mWriteQueue p); reflexivity. Qed.

Lemma mLastWrite_sendMessage now f (p : TCPPeer) :
  mLastWrite (sendMessage now f p) =
  match mWriteQueue p with [] => now | _ :: _ => mLastWrite p end.
Proof. unfold sendMessage. destruct (mWriteQueue p); reflexivity. Qed.

Lemma mLastWrite_writeCompletion ec n now (p : TCPPeer) :
  mLastWrite (writeCompletion ec n now p) =
  match tl (mWriteQueue p) with [] => mLastWrite p | _ :: _ => now end.
Proof.
  unfold writeCompletion. cbv zeta. rewrite mLastWrite_messageSender.
  destruct (writeHandler_sameWriteSide ec n p) as (H1 & H2 & _).
  cbn [mWriteQueue mLastWrite set_mWriteQueue]. rewrite H1, H2. reflexivity.
Qed.

(** C9 (counterexample).  A header read issued at time 0 completes
    successfully at time 5: [mLastRead] is still 0.  A write started at
    time 1 completes successfully at time 5 with nothing else queued:
    [mLastWrite] is still 1. *)
Lemma completion_leaves_timestamp :
  let c := create REMOTE_CALLED_US false 0 in
  let h := headerCompletion false 4 [x00; x00; x00; x05] (peer c) in
  let w := sendMessage 1 [x01] (peer c) in
  step 1 5 (EvHeaderDone false 4 [x00; x00; x00; x05]) c = Some (mkConn h 0) /\
  mLastRead h = 0 /\
  step 1 5 (EvWriteDone false 1) (mkConn w 0) =
    Some (mkConn (writeCompletion false 1 5 w) 1) /\
  mLastWrite (writeCompletion false 1 5 w) = 1.
Proof. repeat split; vm_compute; reflexivity. Qed.

(** C9 (amended).  The timestamps record when an operation is started,
    not when it completes.  [mLastRead] is set to the clock reading
    whenever [startRead] issues a header read; a header completion never
    changes it, and a body completion changes it only through the
    [startRead] that follows a successful dispatch.  [mLastWrite] is set
    whenever [messageSender] starts a write; after a write completion
    it is the completion time only if another frame was queued behind
    the one just written. *)
Theorem timestamps_track_initiation
  (ec c a th : bool) (n now : Z) (r : list byte) (f : Frame) (p : TCPPeer) :
  mLastRead (startRead th now p) =
    (if shouldAbort p then mLastRead p else now) /\
  mLastRead (headerCompletion ec n r p) = mLastRead p /\
  mLastRead (bodyCompletion ec n r c a th now p) =
    (if ec || c || is_closing (mState p) then mLastRead p else now) /\
  mLastWrite (messageSender now p) =
    match mWriteQueue p with [] => mLastWrite p | _ :: _ => now end /\
  mLastWrite (sendMessage now f p) =
    match mWriteQueue p with [] => now | _ :: _ => mLastWrite p end /\
  mLastWrite (writeCompletion ec n now p) =
    match tl (mWriteQueue p) with [] => mLastWrite p | _ :: _ => now end.
Proof.
  repeat split.
  - apply mLastRead_startRead.
  - apply mLastRead_headerCompletion.
  - apply mLastRead_bodyCompletion.
  - apply mLastWrite_messageSender.
  - apply mLastWrite_sendMessage.
  - apply mLastWrite_writeCompletion.
Qed.

(** ** Nothing is started once the connection is closing *)

Lemma emit_closedWith a b (e : Effect) (p : TCPPeer) :
  is_readHeader e = false -> is_timerArm e = false ->
  closedWith a b p -> closedWith a b (emit e p).
Proof.
  intros Hr Ht (H1 & H2 & H3). unfold closedWith.
  rewrite mState_emit, trace_emit, !calls_snoc, Hr, Ht. cbn [Nat.b2n].
  repeat split; [exact H1 | lia | lia].
Qed.

Lemma run_closedWith tps a b evs (c c' : Conn) :
  run tps c evs = Some c' ->
  closedWith a b (peer c) -> closedWith a b (peer c').
Proof.
  apply run_preserves;
    try (intros; apply emit_closedWith; [reflexivity | reflexivity | assumption]);
    try (intros ? ? H; exact H).
  - intros p H. rewrite drop_when_closing; [exact H | apply H].
  - intros th now p H. rewrite startRead_closing; [exact H | apply H].
  - intros p H. rewrite startIdleTimer_closing; [exact H | apply H].
Qed.

(** C10 (counterexample).  On a connection that has been dropped,
    operations are still started: a frame sent on the idle queue is
    handed to the stream, a header completion that reports success has
    its body read issued, and an errored write completion is followed
    by the write of the next frame.  The state is [CLOSING] throughout;
    only [startRead] and [startIdleTimer] are guarded. *)
Lemma closing_still_starts_body_read_and_writes :
  let c := mkConn (drop (accept false 0)) 0 in
  let evs := [ (1, EvSendMessage [x0a]);
               (2, EvHeaderDone false 4 [x00; x00; x00; x02]);
               (3, EvSendMessage [x0b]);
               (4, EvWriteDone true 0) ] in
  mState (peer c) = CLOSING /\
  option_map (fun c' => (mState (peer c'), trace (peer c')))
             (run 1 c evs) =
  Some (CLOSING,
        [ AsyncReadHeader 4; TimerCancel; DropPeer; SocketClose;
          AsyncWrite [x0a]; Mark ByteRead 4; AsyncReadBody 2;
          AsyncWrite [x0b] ]).
Proof. split; vm_compute; reflexivity. Qed.

(** C10 (amended).  Once the state is [CLOSING], a call to [startRead]
    or to [startIdleTimer] returns without touching the object or
    calling out; and over any further schedule of events the state
    stays [CLOSING], no header read is issued and the timer is never
    armed again. *)
Theorem closing_starts_nothing tps (c : Conn) :
  mState (peer c) = CLOSING ->
  (forall th now, startRead th now (peer c) = peer c) /\
  startIdleTimer (peer c) = peer c /\
  forall evs c', run tps c evs = Some c' ->
    mState (peer c') = CLOSING /\
    calls is_readHeader (trace (peer c')) =
      calls is_readHeader (trace (peer c)) /\
    calls is_timerArm (trace (peer c')) =
      calls is_timerArm (trace (peer c)).
Proof.
  intros E. split; [|split].
  - intros th now. apply startRead_closing, E.
  - apply startIdleTimer_closing, E.
  - intros evs c' Hr.
    apply (run_closedWith tps _ _ evs c c' Hr).
    repeat split. exact E.
Qed.

Lemma closing_starts_nothing_witness :
  let p := drop (sendMessage 1 [x01] (accept false 0)) in
  let evs := [ (2, EvBodyDone false 1 [x07] false false false);
               (3, EvTimer false); (4, EvConnected false);
               (5, EvHeaderDone true 0 []) ] in
  mState p = CLOSING /\
  startRead false 2 p = p /\
  startIdleTimer p = p /\
  exists c', run 1 (mkConn p 0) evs = Some c' /\
             calls is_readHeader (trace (peer c')) = 1%nat /\
             calls is_timerArm (trace (peer c')) = 0%nat.
Proof.
  intros p evs.
  assert (E : mState (peer (mkConn p 0)) = CLOSING)
    by (vm_compute; reflexivity).
  destruct (closing_starts_nothing 1 (mkConn p 0) E) as (H1 & H2 & H3).
  split; [exact E|]. split; [exact (H1 false 2)|]. split; [exact H2|].
  destruct (run 1 (mkConn p 0) evs) as [c'|] eqn:Hr;
    [|vm_compute in Hr; discriminate].
  exists c'. split; [reflexivity|].
  destruct (H3 evs c' Hr) as (_ & Hh & Ht).
  rewrite Hh, Ht. split; vm_compute; reflexivity.
Defined.

(** ** The outbound queue *)

Lemma sameWriteSide_refl (p : TCPPeer) : sameWriteSide p p.
Proof. repeat split. Qed.

Lemma startRead_sameWriteSide th now (p q : TCPPeer) :
  sameWriteSide p q -> sameWriteSide p (startRead th now q).
Proof.
  intros H. unfold startRead. destruct (shouldAbort q); [exact H|].
  cbv zeta. destruct th.
  - apply drop_sameWriteSide. exact H.
  - apply emit_sameWriteSide; [reflexivity | exact H].
Qed.

Lemma startIdleTimer_sameWriteSide (p q : TCPPeer) :
  sameWriteSide p q -> sameWriteSide p (startIdleTimer q).
Proof.
  intros H. unfold startIdleTimer. destruct (shouldAbort q); [exact H|].
  apply emit_sameWriteSide; [reflexivity | exact H].
Qed.

Ltac write_side_frame :=
  intros;
  first [ apply sameWriteSide_refl
        | assumption
        | apply emit_sameWriteSide; [reflexivity | assumption]
        | apply drop_sameWriteSide; assumption
        | apply startRead_sameWriteSide; assumption
        | apply startIdleTimer_sameWriteSide; assumption ].

Lemma headerCompletion_sameWriteSide ec n r (p : TCPPeer) :
  sameWriteSide p (headerCompletion ec n r p).
Proof.
  apply (headerCompletion_preserves (sameWriteSide p)); write_side_frame.
Qed.

Lemma bodyCompletion_sameWriteSide ec n r c a th now (p : TCPPeer) :
  sameWriteSide p (bodyCompletion ec n r c a th now p).
Proof.
  apply (bodyCompletion_preserves (sameWriteSide p)); write_side_frame.
Qed.

Lemma idleTimerExpired_sameWriteSide tps ec now (p : TCPPeer) :
  sameWriteSide p (idleTimerExpired tps ec now p).
Proof.
  apply (idleTimerExpired_preserves (sameWriteSide p)); write_side_frame.
Qed.

Lemma sendMessage_write_side now f (p : TCPPeer) :
  mWriteQueue (sendMessage now f p) = mWriteQueue p ++ [f] /\
  writes (trace (sendMessage now f p)) =
    writes (trace p) ++ match mWriteQueue p with [] => [f] | _ :: _ => [] end.
Proof.
  unfold sendMessage, messageSender. cbv zeta.
  destruct (mWriteQueue p) as [|g Q] eqn:E;
    cbn [mWriteQueue set_mWriteQueue set_mLastWrite emit trace app].
  - rewrite writes_app. split; reflexivity.
  - rewrite app_nil_r. split; reflexivity.
Qed.

Lemma writeCompletion_write_side ec n now (p : TCPPeer) :
  mWriteQueue (writeCompletion ec n now p) = tl (mWriteQueue p) /\
  writes (trace (writeCompletion ec n now p)) =
    writes (trace p) ++ firstn 1 (tl (mWriteQueue p)).
Proof.
  unfold writeCompletion, messageSender. cbv zeta.
  destruct (writeHandler_sameWriteSide ec n p) as (H1 & _ & H3).
  cbn [mWriteQueue set_mWriteQueue]. rewrite H1.
  destruct (tl (mWriteQueue p)) as [|g Q];
    cbn [mWriteQueue set_mWriteQueue set_mLastWrite emit trace firstn].
  - rewrite app_nil_r. split; [reflexivity | exact H3].
  - rewrite writes_app, H3. split; reflexivity.
Qed.

Lemma writeInv_frame (E : list Frame) (p : TCPPeer) (k : nat) (q : TCPPeer) :
  sameWriteSide p q -> writeInv E (mkConn p k) -> writeInv E (mkConn q k).
Proof.
  intros (H1 & _ & H3) (D & HW & HE & HD). exists D.
  cbn [peer completedWrites] in *. rewrite H1, H3. auto.
Qed.

Lemma step_writeInv tps now e (E : list Frame) (c c' : Conn) :
  writeInv E c -> step tps now e c = Some c' ->
  writeInv (E ++ enqueued [(now, e)]) c'.
Proof.
  intros Hinv Hs. destruct c as [p k].
  destruct e as [f | ec n | ec n r | ec n r co au th | ec | th | ];
    cbn [step peer completedWrites enqueued] in Hs;
    try (injection Hs as <-; rewrite app_nil_r;
         eapply writeInv_frame; [|exact Hinv]).
  - (* sendMessage *)
    injection Hs as <-. destruct Hinv as (D & HW & HE & HD).
    cbn [peer completedWrites] in *.
    destruct (sendMessage_write_side now f p) as (HQ & HT).
    exists D. cbn [peer completedWrites]. rewrite HQ, HT, HW, HE.
    destruct (mWriteQueue p) as [|g Q]; cbn [firstn app];
      rewrite <- ?app_assoc, ?app_nil_r; auto.
  - (* write completion *)
    destruct Hinv as (D & HW & HE & HD). cbn [peer completedWrites] in *.
    unfold outstandingWrites in Hs. cbn [peer completedWrites] in Hs.
    destruct (Nat.ltb_spec 0 (List.length (writes (trace p)) - k))
      as [Hout|];
      [|discriminate].
    injection Hs as <-. rewrite app_nil_r.
    destruct (writeCompletion_write_side ec n now p) as (HQ & HT).
    destruct (mWriteQueue p) as [|g Q].
    + rewrite HW, length_app in Hout. cbn [firstn List.length] in Hout. lia.
    + exists (D ++ [g]). cbn [peer completedWrites tl firstn] in *.
      rewrite HQ, HT, HW, HE, length_app, <- !app_assoc.
      cbn [app List.length]. repeat split. lia.
  - apply headerCompletion_sameWriteSide.
  - apply bodyCompletion_sameWriteSide.
  - apply idleTimerExpired_sameWriteSide.
  - apply startRead_sameWriteSide, sameWriteSide_refl.
  - apply drop_sameWriteSide, sameWriteSide_refl.
Qed.

Lemma enqueued_cons now e evs :
  enqueued ((now, e) :: evs) = enqueued [(now, e)] ++ enqueued evs.
Proof. destruct e; reflexivity. Qed.

Lemma run_writeInv tps evs : forall (E : list Frame) (c c' : Conn),
  writeInv E c -> run tps c evs = Some c' ->
  writeInv (E ++ enqueued evs) c'.
Proof.
  induction evs as [|[now e] evs IH]; intros E c c' Hinv Hr;
    cbn [run] in Hr.
  - injection Hr as <-. cbn [enqueued]. rewrite app_nil_r. exact Hinv.
  - destruct (step tps now e c) as [c1|] eqn:Hs; [|discriminate].
    rewrite enqueued_cons, app_assoc.
    eapply IH; [|exact Hr]. eapply step_writeInv; eauto.
Qed.

Lemma create_writeInv role th now : writeInv [] (create role th now).
Proof.
  destruct role; cbn [create].
  - exists []. repeat split.
  - apply (writeInv_frame [] (construct REMOTE_CALLED_US now)).
    + apply startRead_sameWriteSide, sameWriteSide_refl.
    + exists []. repeat split.
Qed.

(** C3.  Over any schedule of [sendMessage] calls, completions and
    other events on a freshly created connection: the frames handed to
    the stream are a prefix of the frames enqueued, in enqueue order,
    the rest being the queue behind its front; at most one write is
    outstanding, and one is outstanding exactly when the queue is not
    empty; the frames that have left the queue are exactly those whose
    write completion has been observed, and the frame in flight is
    still the front of the queue. *)
Theorem outbound_fifo_single_flight tps role th t0 evs (c : Conn) :
  run tps (create role th t0) evs = Some c ->
  let W := writes (trace (peer c)) in
  let Q := mWriteQueue (peer c) in
  let k := completedWrites c in
  enqueued evs = W ++ tl Q /\
  (outstandingWrites c <= 1)%nat /\
  outstandingWrites c = length (firstn 1 Q) /\
  enqueued evs = firstn k W ++ Q /\
  skipn k W = firstn 1 Q.
Proof.
  intros Hr. cbv zeta.
  destruct (run_writeInv tps evs [] _ c (create_writeInv role th t0) Hr)
    as (D & HW & HE & HD).
  cbn [app] in HE. unfold outstandingWrites. rewrite HW, HE, <- HD.
  rewrite length_app, firstn_app, skipn_app, Nat.sub_diag, firstn_all,
    skipn_all.
  cbn [firstn skipn app]. rewrite app_nil_r.
  destruct (mWriteQueue (peer c)) as [|g Q];
    cbn [firstn tl List.length app]; rewrite <- ?app_assoc;
    repeat split; try lia.
Qed.

Lemma outbound_fifo_single_flight_witness :
  let A := [x0a] in let B := [x0b; x0b] in let C := [x0c] in
  let evs := [ (1, EvSendMessage A); (1, EvSendMessage B);
               (2, EvWriteDone false 1); (2, EvSendMessage C);
               (3, EvWriteDone false 2) ] in
  let p := writeCompletion false 2 3 (sendMessage 2 C
             (writeCompletion false 1 2 (sendMessage 1 B
               (sendMessage 1 A (accept false 0))))) in
  run 1 (create REMOTE_CALLED_US false 0) evs = Some (mkConn p 2) /\
  [A; B; C] = writes (trace p) ++ tl (mWriteQueue p) /\
  (outstandingWrites (mkConn p 2) <= 1)%nat /\
  [A; B; C] = firstn 2 (writes (trace p)) ++ mWriteQueue p /\
  skipn 2 (writes (trace p)) = firstn 1 (mWriteQueue p).
Proof.
  intros A B C evs p.
  assert (Hrun : run 1 (create REMOTE_CALLED_US false 0) evs
                 = Some (mkConn p 2)) by (vm_compute; reflexivity).
  pose proof (outbound_fifo_single_flight 1 REMOTE_CALLED_US false 0 evs
                (mkConn p 2) Hrun) as H.
  cbv zeta in H. cbn [peer completedWrites] in H.
  destruct H as (H1 & H2 & _ & H4 & H5).
  split; [exact Hrun|]. split; [exact H1|]. split; [exact H2|].
  split; [exact H4 | exact H5].
Defined.

(** After a write completion, whatever its error code, the frame queued
    behind the one just written is handed to the stream. *)
Lemma writeCompletion_starts_next ec n now (p : TCPPeer) (a b : Frame)
  (Q : list Frame) :
  mWriteQueue p = a :: b :: Q ->
  trace (writeCompletion ec n now p) =
  trace (writeHandler ec n p) ++ [AsyncWrite b].
Proof.
  intros HQ. unfold writeCompletion, messageSender. cbv zeta.
  destruct (writeHandler_sameWriteSide ec n p) as (H1 & _ & _).
  cbn [mWriteQueue set_mWriteQueue]. rewrite H1, HQ. reflexivity.
Qed.

(** C4 (as the code behaves).  Two frames are queued and the write of the
    first completes with an error: the error is counted and the
    connection torn down, and then the completion handler pops the
    queue and starts the write of the second frame all the same. *)
Theorem errored_write_keeps_draining :
  let A := [x0a] in let B := [x0b] in
  let evs := [ (1, EvSendMessage A); (1, EvSendMessage B);
               (2, EvWriteDone true 0) ] in
  option_map (fun c => (mState (peer c), trace (peer c)))
             (run 1 (create REMOTE_CALLED_US false 0) evs) =
  Some (CLOSING,
        [ AsyncReadHeader 4; AsyncWrite A; Mark ErrorWrite 1;
          TimerCancel; DropPeer; SocketClose; AsyncWrite B ]).
Proof. vm_compute. reflexivity. Qed.

(** ** Construction *)

Lemma teardownCalls_arm_nothing (p : TCPPeer) :
  calls is_timerArm (teardownCalls p) = 0%nat.
Proof. unfold teardownCalls. destruct (is_closing (mState p)); reflexivity. Qed.

Lemma startRead_arms_nothing th now (p : TCPPeer) :
  calls is_timerArm (trace (startRead th now p)) =
  calls is_timerArm (trace p).
Proof.
  unfold startRead. destruct (shouldAbort p); [reflexivity|].
  cbv zeta. destruct th.
  - rewrite trace_drop, calls_app, teardownCalls_arm_nothing.
    apply Nat.add_0_r.
  - rewrite trace_emit, calls_snoc. cbn [is_timerArm Nat.b2n]. apply Nat.add_0_r.
Qed.

(** C7 (as the code behaves).  [accept] and [connected] issue the first
    header read and nothing else: neither arms the idle timer, so the
    trace of a new Acceptor, and of an Initiator whose connect has
    completed, holds no [TimerArm]. *)
Theorem accept_and_connected_leave_timer_unarmed :
  (forall th now, calls is_timerArm (trace (accept th now)) = 0%nat) /\
  (forall th now p, calls is_timerArm (trace (connected th now p)) =
                    calls is_timerArm (trace p)) /\
  trace (accept false 0) = [AsyncReadHeader 4] /\
  trace (connected false 5 (initiate 0)) = [AsyncConnect; AsyncReadHeader 4].
Proof.
  split; [|split; [|split]].
  - intros th now. unfold accept. rewrite startRead_arms_nothing. reflexivity.
  - intros th now p. apply startRead_arms_nothing.
  - vm_compute. reflexivity.
  - vm_compute. reflexivity.
Qed.

(** * Further properties of the code *)

(** ** The header decoder *)

(** X1.  [getIncomingMsgLength] computes, for any four header bytes,
    the big-endian value of their low 31 bits: the [int] it accumulates
    never wraps and is never negative, so its [length < 0] test never
    fires, and the connection is dropped exactly when that value is
    above [MAX_MESSAGE_SIZE]; the value is returned either way. *)
Theorem decoder_computes_masked_value (p : TCPPeer) :
  let v := headerValue (mIncomingHeader p) in
  0 <= v < 2 ^ 31 /\
  getIncomingMsgLength p =
    (v, if v >? MAX_MESSAGE_SIZE then drop (emit (Mark ErrorRead 1) p)
        else p).
Proof.
  cbv zeta. split.
  - apply headerValue_range.
  - apply getIncomingMsgLength_eq.
Qed.

(** X2.  The top bit of the header is ignored: for every 31-bit length
    [L], the header of [L] and the header of [L] with the top bit set
    both decode to [L]. *)
Theorem top_bit_is_ignored (L : Z) (p : TCPPeer) :
  0 <= L < 2 ^ 31 ->
  fst (getIncomingMsgLength
         (set_mIncomingHeader (encodeHeader (L + 2 ^ 31)) p)) = L /\
  fst (getIncomingMsgLength (set_mIncomingHeader (encodeHeader L) p)) = L.
Proof.
  intros HL. rewrite !getIncomingMsgLength_eq. cbn [fst].
  change (mIncomingHeader (set_mIncomingHeader (encodeHeader (L + 2 ^ 31)) p))
    with (encodeHeader (L + 2 ^ 31)).
  change (mIncomingHeader (set_mIncomingHeader (encodeHeader L) p))
    with (encodeHeader L).
  split; [|apply headerValue_encodeHeader; exact HL].
  unfold headerValue, encodeHeader, at_. cbn [nth].
  rewrite !u8_byte_of_Z, !Z.shiftr_div_pow2 by lia.
  change (2 ^ 24) with 16777216. change (2 ^ 16) with 65536.
  change (2 ^ 8) with 256. change (2 ^ 31) with 2147483648 in *.
  Z.to_euclidean_division_equations. lia.
Qed.

Lemma top_bit_is_ignored_witness :
  0 <= 5 < 2 ^ 31 /\
  fst (getIncomingMsgLength
         (set_mIncomingHeader (encodeHeader (5 + 2 ^ 31)) (accept false 0)))
    = 5 /\
  fst (getIncomingMsgLength
         (set_mIncomingHeader (encodeHeader 5) (accept false 0))) = 5.
Proof.
  split; [lia|]. apply (top_bit_is_ignored 5 (accept false 0)). lia.
Defined.

(** ** The read cycle *)

Lemma fill_exact (received v : list byte) :
  length received = length v -> fill received v = received.
Proof.
  intros H. unfold fill. rewrite <- H, firstn_all, H, skipn_all.
  apply app_nil_r.
Qed.

(** A successful header completion whose header is within bounds: the
    body buffer is resized and the body read issued, nothing else. *)
Lemma headerCompletion_accepts n (h : list byte) (p : TCPPeer) :
  length h = length (mIncomingHeader p) ->
  headerValue h <= MAX_MESSAGE_SIZE ->
  headerCompletion false n h p =
  emit (AsyncReadBody (headerValue h))
    (set_mIncomingBody (resize (Z.to_nat (headerValue h)) (mIncomingBody p))
       (emit (Mark ByteRead n) (set_mIncomingHeader h p))).
Proof.
  intros Hlen Hok. unfold headerCompletion. cbv zeta.
  rewrite fill_exact by exact Hlen.
  pose proof (readHeaderHandler_success n (set_mIncomingHeader h p)) as H.
  cbv zeta in H. rewrite H. clear H.
  rewrite getIncomingMsgLength_eq. cbn [snd].
  change (mIncomingHeader (emit (Mark ByteRead n) (set_mIncomingHeader h p)))
    with h.
  change (mIncomingHeader (set_mIncomingHeader h p)) with h.
  destruct (Z.gtb_spec (headerValue h) MAX_MESSAGE_SIZE); [lia|].
  reflexivity.
Qed.

(** X3.  One full read cycle on a live connection.  The header read of
    [startRead] completes with four bytes whose masked value [len] is
    within bounds, then the body read completes with [len] bytes that
    unmarshal: exactly one body read of [len] bytes is issued, the sink
    is called once with exactly the bytes received and the current
    authentication flag, the next 4-byte header read is issued,
    [mLastRead] is the time of that re-issue, and the state is
    unchanged. *)
Theorem read_cycle_delivers_frame
  (n1 n2 now : Z) (auth : bool) (h body : list byte) (p : TCPPeer) :
  is_closing (mState p) = false ->
  length h = length (mIncomingHeader p) ->
  headerValue h <= MAX_MESSAGE_SIZE ->
  length body = Z.to_nat (headerValue h) ->
  let q := bodyCompletion false n2 body false auth false now
             (headerCompletion false n1 h p) in
  trace q = trace p ++
    [ Mark ByteRead n1; AsyncReadBody (headerValue h); Mark ByteRead n2;
      Mark MessageRead 1; Deliver body auth; AsyncReadHeader 4 ] /\
  mState q = mState p /\
  mIncomingBody q = body /\
  length (mIncomingHeader q) = 4%nat /\
  mLastRead q = now.
Proof.
  intros Hlive Hlen Hok Hbody. cbv zeta.
  rewrite headerCompletion_accepts by assumption.
  unfold bodyCompletion. cbv zeta.
  rewrite mIncomingBody_emit, mIncomingBody_set_mIncomingBody.
  rewrite fill_exact by (rewrite length_resize; exact Hbody).
  unfold readBodyHandler, recvMessage, startRead, shouldAbort.
  cbn [negb]. cbv zeta.
  rewrite !mState_emit.
  cbn [mState set_mIncomingHeader set_mIncomingBody emit].
  rewrite Hlive.
  cbn [trace mState mIncomingBody mIncomingHeader mLastRead emit
       set_mIncomingHeader set_mIncomingBody set_mLastRead].
  rewrite length_resize, <- !app_assoc.
  repeat split.
Qed.

Lemma read_cycle_delivers_frame_witness :
  let p := accept false 0 in
  let h := [x00; x00; x00; x05] in
  let body := [x68; x65; x6c; x6c; x6f] in
  let q := bodyCompletion false 5 body false false false 7
             (headerCompletion false 4 h p) in
  is_closing (mState p) = false /\
  length h = length (mIncomingHeader p) /\
  headerValue h <= MAX_MESSAGE_SIZE /\
  length body = Z.to_nat (headerValue h) /\
  trace q = trace p ++
    [ Mark ByteRead 4; AsyncReadBody (headerValue h); Mark ByteRead 5;
      Mark MessageRead 1; Deliver body false; AsyncReadHeader 4 ] /\
  mState q = mState p /\
  mIncomingBody q = body /\
  length (mIncomingHeader q) = 4%nat /\
  mLastRead q = 7.
Proof.
  intros p h body q.
  assert (H1 : is_closing (mState p) = false) by (vm_compute; reflexivity).
  assert (H2 : length h = length (mIncomingHeader p))
    by (vm_compute; reflexivity).
  assert (H3 : headerValue h <= MAX_MESSAGE_SIZE)
    by (vm_compute; discriminate).
  assert (H4 : length body = Z.to_nat (headerValue h))
    by (vm_compute; reflexivity).
  split; [exact H1|]. split; [exact H2|]. split; [exact H3|].
  split; [exact H4|].
  exact (read_cycle_delivers_frame 4 5 7 false h body p H1 H2 H3 H4).
Defined.

(** X4.  A body that arrives intact but does not unmarshal tears the
    connection down: the message meter has already been marked, the
    sink is not called, no further header read is issued and
    [mLastRead] keeps its value. *)
Theorem corrupt_body_drops
  (n now : Z) (auth th : bool) (r : list byte) (p : TCPPeer) :
  is_closing (mState p) = false ->
  let q := bodyCompletion false n r true auth th now p in
  mState q = CLOSING /\
  trace q = trace p ++
    [ Mark ByteRead n; Mark MessageRead 1;
      TimerCancel; DropPeer; SocketClose ] /\
  mLastRead q = mLastRead p.
Proof.
  intros Hlive. cbv zeta. split; [|split].
  - unfold bodyCompletion, readBodyHandler, recvMessage. cbn [negb]. cbv zeta.
    rewrite startRead_closing; apply drop_closing.
  - unfold bodyCompletion, readBodyHandler, recvMessage. cbn [negb]. cbv zeta.
    rewrite startRead_closing by apply drop_closing.
    rewrite trace_drop, !trace_emit. unfold teardownCalls.
    rewrite !mState_emit.
    cbn [mState trace set_mIncomingHeader set_mIncomingBody].
    rewrite Hlive, <- !app_assoc. reflexivity.
  - rewrite mLastRead_bodyCompletion. reflexivity.
Qed.

Lemma corrupt_body_drops_witness :
  let p := headerCompletion false 4 [x00; x00; x00; x01] (accept false 0) in
  let q := bodyCompletion false 1 [xff] true false false 9 p in
  is_closing (mState p) = false /\
  mState q = CLOSING /\
  trace q = trace p ++
    [ Mark ByteRead 1; Mark MessageRead 1;
      TimerCancel; DropPeer; SocketClose ] /\
  mLastRead q = mLastRead p.
Proof.
  intros p q.
  assert (H : is_closing (mState p) = false) by (vm_compute; reflexivity).
  split; [exact H|].
  exact (corrupt_body_drops 1 9 false false [xff] p H).
Defined.

(** ** Completions that arrive after teardown *)



(** X6.  The read handlers do not look at the state when the completion
    reports success.  On a [CLOSING] connection a header within bounds
    still has the body buffer resized and the body read issued, and a
    body that unmarshals is still handed to the sink; only the next
    header read is withheld, by [startRead]. *)
Theorem successful_completion_after_drop_is_processed
  (n now : Z) (a th : bool) (p : TCPPeer) :
  mState p = CLOSING ->
  headerValue (mIncomingHeader p) <= MAX_MESSAGE_SIZE ->
  trace (readHeaderHandler false n p) =
    trace p ++ [ Mark ByteRead n;
                 AsyncReadBody (headerValue (mIncomingHeader p)) ] /\
  trace (readBodyHandler false n false a th now p) =
    trace p ++ [ Mark ByteRead n; Mark MessageRead 1;
                 Deliver (mIncomingBody p) a ] /\
  mState (readBodyHandler false n false a th now p) = CLOSING.
Proof.
  intros E Hok. split; [|split].
  - rewrite readHeaderHandler_trace, getIncomingMsgLength_eq. cbn [snd].
    change (mIncomingHeader (emit (Mark ByteRead n) p))
      with (mIncomingHeader p).
    destruct (Z.gtb_spec (headerValue (mIncomingHeader p)) MAX_MESSAGE_SIZE);
      [lia|].
    rewrite trace_emit, <- app_assoc. reflexivity.
  - unfold readBodyHandler, recvMessage. cbn [negb]. cbv zeta.
    rewrite startRead_closing by (rewrite !mState_emit; exact E).
    rewrite !trace_emit, <- !app_assoc. reflexivity.
  - unfold readBodyHandler, recvMessage. cbn [negb]. cbv zeta.
    rewrite startRead_closing by (rewrite !mState_emit; exact E).
    rewrite !mState_emit. exact E.
Qed.

Lemma successful_completion_after_drop_is_processed_witness :
  let p := set_mIncomingBody [x07]
             (set_mIncomingHeader [x00; x00; x00; x01]
                (drop (accept false 0))) in
  mState p = CLOSING /\
  headerValue (mIncomingHeader p) <= MAX_MESSAGE_SIZE /\
  trace (readHeaderHandler false 4 p) =
    trace p ++ [ Mark ByteRead 4;
                 AsyncReadBody (headerValue (mIncomingHeader p)) ] /\
  trace (readBodyHandler false 4 false false false 3 p) =
    trace p ++ [ Mark ByteRead 4; Mark MessageRead 1;
                 Deliver (mIncomingBody p) false ] /\
  mState (readBodyHandler false 4 false false false 3 p) = CLOSING.
Proof.
  intros p.
  assert (E : mState p = CLOSING) by (vm_compute; reflexivity).
  assert (H : headerValue (mIncomingHeader p) <= MAX_MESSAGE_SIZE)
    by (vm_compute; discriminate).
  split; [exact E|]. split; [exact H|].
  exact (successful_completion_after_drop_is_processed 4 3 false false p E H).
Defined.

(** ** Calls to the sink *)

Lemma deliver_emit (e : Effect) (p : TCPPeer) :
  calls is_deliver (trace (emit e p)) =
  (calls is_deliver (trace p) + Nat.b2n (is_deliver e))%nat.
Proof. rewrite trace_emit. apply calls_snoc. Qed.

Lemma deliver_drop (p : TCPPeer) :
  calls is_deliver (trace (drop p)) = calls is_deliver (trace p).
Proof.
  rewrite trace_drop, calls_app. unfold teardownCalls.
  destruct (is_closing (mState p)); cbn; lia.
Qed.

Lemma deliver_startRead th now (p : TCPPeer) :
  calls is_deliver (trace (startRead th now p)) =
  calls is_deliver (trace p).
Proof.
  unfold startRead. destruct (shouldAbort p); [reflexivity|]. cbv zeta.
  destruct th.
  - rewrite deliver_drop. reflexivity.
  - rewrite deliver_emit. cbn [is_deliver Nat.b2n].
    rewrite Nat.add_0_r. reflexivity.
Qed.

Lemma deliver_startIdleTimer (p : TCPPeer) :
  calls is_deliver (trace (startIdleTimer p)) = calls is_deliver (trace p).
Proof.
  unfold startIdleTimer. destruct (shouldAbort p); [reflexivity|].
  rewrite deliver_emit. cbn [is_deliver Nat.b2n]. apply Nat.add_0_r.
Qed.

(** Closes the side conditions of the preservation lemmas for the
    number of sink calls. *)
Ltac deliver_frame :=
  intros;
  first [ reflexivity
        | assumption
        | rewrite deliver_emit; cbn [is_deliver Nat.b2n];
          rewrite Nat.add_0_r; assumption
        | rewrite deliver_drop; assumption
        | rewrite deliver_startRead; assumption
        | rewrite deliver_startIdleTimer; assumption ].

Lemma deliver_bodyCompletion ec n r c a th now (p : TCPPeer) :
  calls is_deliver (trace (bodyCompletion ec n r c a th now p)) =
  (calls is_deliver (trace p) + Nat.b2n (negb ec && negb c))%nat.
Proof.
  unfold bodyCompletion, readBodyHandler, recvMessage. cbv zeta.
  destruct ec; cbn [negb andb Nat.b2n].
  - rewrite deliver_drop.
    match goal with |- context [if ?b then _ else _] => destruct b end;
      rewrite ?deliver_emit; cbn [is_deliver Nat.b2n trace
        set_mIncomingHeader set_mIncomingBody]; lia.
  - rewrite deliver_startRead.
    destruct c; cbn [negb Nat.b2n];
      rewrite ?deliver_drop, !deliver_emit;
      cbn [is_deliver Nat.b2n trace set_mIncomingHeader set_mIncomingBody];
      lia.
Qed.

Lemma step_deliver tps now e (c c' : Conn) :
  step tps now e c = Some c' ->
  calls is_deliver (trace (peer c')) =
  (calls is_deliver (trace (peer c)) + dispatched [(now, e)])%nat.
Proof.
  intros Hs.
  destruct e as [f | ec n | ec n r | ec n r co au th | ec | th | ];
    cbn [step] in Hs;
    try (destruct (0 <? outstandingWrites c)%nat; [|discriminate]);
    injection Hs as <-; cbn [peer].
  - cbn [dispatched]. rewrite Nat.add_0_r.
    apply (sendMessage_preserves
             (fun q => calls is_deliver (trace q) = _)); deliver_frame.
  - cbn [dispatched]. rewrite Nat.add_0_r.
    apply (writeCompletion_preserves
             (fun q => calls is_deliver (trace q) = _)); deliver_frame.
  - cbn [dispatched]. rewrite Nat.add_0_r.
    apply (headerCompletion_preserves
             (fun q => calls is_deliver (trace q) = _)); deliver_frame.
  - rewrite deliver_bodyCompletion. destruct ec, co; reflexivity.
  - cbn [dispatched]. rewrite Nat.add_0_r.
    apply (idleTimerExpired_preserves
             (fun q => calls is_deliver (trace q) = _)); deliver_frame.
  - cbn [dispatched]. rewrite Nat.add_0_r. apply deliver_startRead.
  - cbn [dispatched]. rewrite Nat.add_0_r. apply deliver_drop.
Qed.

Lemma dispatched_cons now e evs :
  dispatched ((now, e) :: evs) =
  (dispatched [(now, e)] + dispatched evs)%nat.
Proof.
  destruct e as [f | ec n | ec n r | ec n r co au th | ec | th | ];
    try reflexivity.
  destruct ec, co; reflexivity.
Qed.

Lemma run_deliver tps evs : forall (c c' : Conn),
  run tps c evs = Some c' ->
  calls is_deliver (trace (peer c')) =
  (calls is_deliver (trace (peer c)) + dispatched evs)%nat.
Proof.
  induction evs as [|[now e] evs IH]; intros c c' Hr; cbn [run] in Hr.
  - injection Hr as <-. cbn [dispatched]. lia.
  - destruct (step tps now e c) as [c1|] eqn:Hs; [|discriminate].
    rewrite (dispatched_cons now e evs).
    rewrite (IH _ _ Hr), (step_deliver _ _ _ _ _ Hs). lia.
Qed.

(** X7.  Over any schedule on a freshly created connection, the sink is
    called exactly once for every body completion that reports success
    and whose payload unmarshals, and never otherwise: not by header
    completions, write completions, timer ticks, errors or teardown. *)
Theorem sink_called_once_per_good_body tps role th t0 evs (c : Conn) :
  run tps (create role th t0) evs = Some c ->
  calls is_deliver (trace (peer c)) = dispatched evs.
Proof.
  intros Hr. rewrite (run_deliver _ _ _ _ Hr).
  destruct role; cbn [create peer].
  - reflexivity.
  - unfold accept. rewrite deliver_startRead. reflexivity.
Qed.

Lemma sink_called_once_per_good_body_witness :
  let evs := [ (1, EvHeaderDone false 4 [x00; x00; x00; x01]);
               (2, EvBodyDone false 1 [x07] false false false);
               (3, EvHeaderDone false 4 [x00; x00; x00; x01]);
               (4, EvBodyDone false 1 [xff] true false false);
               (5, EvBodyDone true 0 [] false false false) ] in
  let c := mkConn
             (bodyCompletion true 0 [] false false false 5
               (bodyCompletion false 1 [xff] true false false 4
                 (headerCompletion false 4 [x00; x00; x00; x01]
                   (bodyCompletion false 1 [x07] false false false 2
                     (headerCompletion false 4 [x00; x00; x00; x01]
                       (accept false 0)))))) 0 in
  run 1 (create REMOTE_CALLED_US false 0) evs = Some c /\
  calls is_deliver (trace (peer c)) = 1%nat.
Proof.
  intros evs c.
  assert (Hrun : run 1 (create REMOTE_CALLED_US false 0) evs = Some c)
    by (vm_compute; reflexivity).
  split; [exact Hrun|].
  exact (sink_called_once_per_good_body 1 REMOTE_CALLED_US false 0 evs
           c Hrun).
Defined.

(** ** Deregistration over a lifetime *)

Lemma destroy_dropPeer (w ct : bool) (p : TCPPeer) :
  calls is_dropPeer (trace (destroy w ct p)) = calls is_dropPeer (trace p).
Proof.
  unfold destroy. cbv zeta.
  change (mSocket (emit TimerCancel p)) with (mSocket p).
  destruct (mSocket p), w, ct;
    rewrite ?trace_emit, ?calls_snoc; cbn [is_dropPeer Nat.b2n]; lia.
Qed.

(** X8.  Over a whole lifetime, any schedule followed by the
    destructor, the overlay manager is told to drop the peer exactly
    once if the connection reached [CLOSING] and never otherwise: the
    destructor does not deregister, so a connection destroyed without
    having been dropped is never reported. *)
Theorem deregistered_only_by_drop tps role th t0 evs (c : Conn)
  (w ct : bool) :
  run tps (create role th t0) evs = Some c ->
  calls is_dropPeer (trace (destroy w ct (peer c))) =
  Nat.b2n (is_closing (mState (peer c))).
Proof.
  intros Hr. rewrite destroy_dropPeer.
  assert (Hinv : tornDownOnce (peer c)).
  { eapply run_tornDownOnce; [exact Hr | apply create_tornDownOnce]. }
  apply Hinv.
Qed.

Lemma deregistered_only_by_drop_witness :
  let evs := [ (1, EvSendMessage [x01]); (2, EvWriteDone false 1);
               (3, EvTimer false) ] in
  let c := mkConn (idleTimerExpired 1 false 3
                     (writeCompletion false 1 2
                        (sendMessage 1 [x01] (accept false 0)))) 1 in
  run 1 (create REMOTE_CALLED_US false 0) evs = Some c /\
  calls is_dropPeer (trace (destroy false false (peer c))) =
  Nat.b2n (is_closing (mState (peer c))).
Proof.
  intros evs c.
  assert (Hrun : run 1 (create REMOTE_CALLED_US false 0) evs = Some c)
    by (vm_compute; reflexivity).
  split; [exact Hrun|].
  exact (deregistered_only_by_drop 1 REMOTE_CALLED_US false 0 evs c
           false false Hrun).
Defined.

(** ** Timestamps under a clock that does not go back *)

Lemma drop_mLastRead_frame (v : Z) (p : TCPPeer) :
  mLastRead p = v -> mLastRead (drop p) = v.
Proof. intros H. rewrite mLastRead_drop. exact H. Qed.

Lemma startIdleTimer_mLastRead_frame (v : Z) (p : TCPPeer) :
  mLastRead p = v -> mLastRead (startIdleTimer p) = v.
Proof.
  intros H. unfold startIdleTimer. destruct (shouldAbort p); exact H.
Qed.

Ltac lastRead_frame :=
  intros;
  first [ reflexivity
        | assumption
        | apply drop_mLastRead_frame; assumption
        | apply startIdleTimer_mLastRead_frame; assumption ].

Lemma mLastRead_sendMessage now f (p : TCPPeer) :
  mLastRead (sendMessage now f p) = mLastRead p.
Proof.
  apply (sendMessage_preserves (fun q => mLastRead q = mLastRead p));
    lastRead_frame.
Qed.

Lemma mLastRead_writeCompletion ec n now (p : TCPPeer) :
  mLastRead (writeCompletion ec n now p) = mLastRead p.
Proof.
  apply (writeCompletion_preserves (fun q => mLastRead q = mLastRead p));
    lastRead_frame.
Qed.

Lemma mLastRead_idleTimerExpired tps ec now (p : TCPPeer) :
  mLastRead (idleTimerExpired tps ec now p) = mLastRead p.
Proof.
  apply (idleTimerExpired_preserves (fun q => mLastRead q = mLastRead p));
    lastRead_frame.
Qed.

(** Each event leaves a timestamp alone or sets it to the clock reading
    of the event. *)
Lemma step_stamps tps now e (c c' : Conn) :
  step tps now e c = Some c' ->
  (mLastRead (peer c') = mLastRead (peer c) \/ mLastRead (peer c') = now) /\
  (mLastWrite (peer c') = mLastWrite (peer c) \/ mLastWrite (peer c') = now).
Proof.
  intros Hs.
  destruct e as [f | ec n | ec n r | ec n r co au th | ec | th | ];
    cbn [step] in Hs;
    try (destruct (0 <? outstandingWrites c)%nat; [|discriminate]);
    injection Hs as <-; cbn [peer]; split.
  - left. apply mLastRead_sendMessage.
  - rewrite mLastWrite_sendMessage. destruct (mWriteQueue (peer c)); auto.
  - left. apply mLastRead_writeCompletion.
  - rewrite mLastWrite_writeCompletion.
    destruct (tl (mWriteQueue (peer c))); auto.
  - left. apply mLastRead_headerCompletion.
  - left. apply (headerCompletion_sameWriteSide ec n r (peer c)).
  - rewrite mLastRead_bodyCompletion.
    destruct (ec || co || is_closing (mState (peer c))); auto.
  - left. apply (bodyCompletion_sameWriteSide ec n r co au th now (peer c)).
  - left. apply mLastRead_idleTimerExpired.
  - left. apply (idleTimerExpired_sameWriteSide tps ec now (peer c)).
  - unfold connected. rewrite mLastRead_startRead.
    destruct (shouldAbort (peer c)); auto.
  - left. apply (startRead_sameWriteSide th now (peer c) (peer c)),
      sameWriteSide_refl.
  - left. apply mLastRead_drop.
  - left. apply (drop_sameWriteSide (peer c) (peer c)), sameWriteSide_refl.
Qed.

Lemma run_stampedWithin tps evs : forall (lo t : Z) (c c' : Conn),
  nondecreasing t evs = true ->
  stampedWithin lo t (peer c) ->
  run tps c evs = Some c' ->
  stampedWithin lo (lastTime t evs) (peer c').
Proof.
  induction evs as [|[now e] evs IH]; intros lo t c c' Hm Hb Hr;
    cbn [run nondecreasing lastTime] in *.
  - injection Hr as <-. exact Hb.
  - destruct (step tps now e c) as [c1|] eqn:Hs; [|discriminate].
    apply andb_prop in Hm. destruct Hm as [Hle Hm].
    apply Z.leb_le in Hle.
    apply (IH lo now c1 c' Hm); [|exact Hr].
    destruct (step_stamps _ _ _ _ _ Hs) as [Hrd Hwr].
    destruct Hb as [Hbr Hbw]. unfold stampedWithin.
    destruct Hrd as [-> | ->], Hwr as [-> | ->]; lia.
Qed.

Lemma create_stamps role th t0 :
  mLastRead (peer (create role th t0)) = t0 /\
  mLastWrite (peer (create role th t0)) = t0.
Proof.
  destruct role; cbn [create peer]; [split; reflexivity|].
  unfold accept. split.
  - rewrite mLastRead_startRead.
    destruct (shouldAbort (construct REMOTE_CALLED_US t0)); reflexivity.
  - apply (startRead_sameWriteSide th t0 (construct REMOTE_CALLED_US t0)
             (construct REMOTE_CALLED_US t0)), sameWriteSide_refl.
Qed.

(** X9.  If the clock readings of a schedule never go back, both
    timestamps always lie between the creation time and the reading of
    the latest event: a timestamp is never in the future, so the
    elapsed times the watchdog computes at a later tick are never
    negative. *)
Theorem timestamps_never_in_the_future tps role th t0 evs (c : Conn) :
  nondecreasing t0 evs = true ->
  run tps (create role th t0) evs = Some c ->
  t0 <= mLastRead (peer c) <= lastTime t0 evs /\
  t0 <= mLastWrite (peer c) <= lastTime t0 evs.
Proof.
  intros Hm Hr.
  apply (run_stampedWithin tps evs t0 t0 (create role th t0) c Hm);
    [|exact Hr].
  destruct (create_stamps role th t0) as [Hrd Hwr].
  unfold stampedWithin. rewrite Hrd, Hwr. lia.
Qed.

Lemma timestamps_never_in_the_future_witness :
  let evs := [ (3, EvSendMessage [x01]);
               (3, EvHeaderDone false 4 [x00; x00; x00; x01]);
               (8, EvBodyDone false 1 [x07] false false false);
               (9, EvWriteDone false 1) ] in
  let c := mkConn
             (writeCompletion false 1 9
               (bodyCompletion false 1 [x07] false false false 8
                 (headerCompletion false 4 [x00; x00; x00; x01]
                   (sendMessage 3 [x01] (accept false 2))))) 1 in
  nondecreasing 2 evs = true /\
  run 1 (create REMOTE_CALLED_US false 2) evs = Some c /\
  2 <= mLastRead (peer c) <= lastTime 2 evs /\
  2 <= mLastWrite (peer c) <= lastTime 2 evs.
Proof.
  intros evs c.
  assert (Hm : nondecreasing 2 evs = true) by (vm_compute; reflexivity).
  assert (Hrun : run 1 (create REMOTE_CALLED_US false 2) evs = Some c)
    by (vm_compute; reflexivity).
  split; [exact Hm|]. split; [exact Hrun|].
  exact (timestamps_never_in_the_future 1 REMOTE_CALLED_US false 2 evs c
           Hm Hrun).
Defined.

(** ** Draining the outbound queue *)

(** X10.  Over any schedule on a freshly created connection, the queue
    holds exactly the frames sent whose write completion has not been
    observed yet.  While it is not empty a write is in flight, so a
    completion can always be delivered; and once as many completions
    have been observed as frames were sent, the queue is empty, nothing
    is outstanding, and every frame has been handed to the stream, in
    the order sent. *)
Theorem queue_drains tps role th t0 evs (c : Conn) :
  run tps (create role th t0) evs = Some c ->
  (length (mWriteQueue (peer c)) + completedWrites c
   = length (enqueued evs))%nat /\
  (mWriteQueue (peer c) <> [] -> outstandingWrites c = 1%nat) /\
  (completedWrites c = length (enqueued evs) ->
     mWriteQueue (peer c) = [] /\
     outstandingWrites c = 0%nat /\
     writes (trace (peer c)) = enqueued evs).
Proof.
  intros Hr.
  destruct (run_writeInv tps evs [] _ c (create_writeInv role th t0) Hr)
    as (D & HW & HE & HD).
  cbn [app] in HE. unfold outstandingWrites.
  rewrite HW, HE, <- HD, !length_app.
  split; [lia|]. split.
  - intros Hne. destruct (mWriteQueue (peer c)); [contradiction|].
    cbn [firstn List.length]. lia.
  - intros Hall.
    assert (Hq : mWriteQueue (peer c) = []).
    { destruct (mWriteQueue (peer c)); [reflexivity|].
      cbn [List.length] in Hall. lia. }
    rewrite Hq. cbn [firstn List.length]. rewrite !app_nil_r.
    repeat split. lia.
Qed.

Lemma queue_drains_witness :
  let evs := [ (1, EvSendMessage [x0a]); (1, EvSendMessage [x0b]);
               (2, EvWriteDone false 1); (3, EvWriteDone false 1) ] in
  let c := mkConn
             (writeCompletion false 1 3
               (writeCompletion false 1 2
                 (sendMessage 1 [x0b]
                   (sendMessage 1 [x0a] (accept false 0))))) 2 in
  run 1 (create REMOTE_CALLED_US false 0) evs = Some c /\
  completedWrites c = length (enqueued evs) /\
  mWriteQueue (peer c) = [] /\
  outstandingWrites c = 0%nat /\
  writes (trace (peer c)) = enqueued evs.
Proof.
  intros evs c.
  assert (Hrun : run 1 (create REMOTE_CALLED_US false 0) evs = Some c)
    by (vm_compute; reflexivity).
  assert (Hall : completedWrites c = length (enqueued evs))
    by (vm_compute; reflexivity).
  split; [exact Hrun|]. split; [exact Hall|].
  exact (proj2 (proj2 (queue_drains 1 REMOTE_CALLED_US false 0 evs c Hrun))
           Hall).
Defined.

(** X11.  The write path never looks at the state, and teardown never
    touches the queue.  [drop] leaves every queued frame in place, and
    [sendMessage] on a dropped connection behaves as on a live one: the
    frame is appended, and if the queue was empty its write is started
    at once, on the stream that [drop] has closed. *)
Theorem write_path_ignores_state (now : Z) (f : Frame) (p : TCPPeer) :
  mWriteQueue (drop p) = mWriteQueue p /\
  mWriteQueue (sendMessage now f (drop p)) = mWriteQueue p ++ [f] /\
  writes (trace (sendMessage now f (drop p))) =
    writes (trace p) ++
    match mWriteQueue p with [] => [f] | _ :: _ => [] end.
Proof.
  destruct (drop_sameWriteSide p p (sameWriteSide_refl p)) as (HQ & _ & HW).
  destruct (sendMessage_write_side now f (drop p)) as (H1 & H2).
  rewrite H1, H2, HQ, HW. repeat split.
Qed.

(** ** A connection that never sends *)

Lemma sameWriteSide_trans (p q r : TCPPeer) :
  sameWriteSide p q -> sameWriteSide q r -> sameWriteSide p r.
Proof.
  intros (H1 & H2 & H3) (H4 & H5 & H6). unfold sameWriteSide.
  rewrite H4, H5, H6. auto.
Qed.

Lemma run_without_send tps evs : forall (c c' : Conn),
  enqueued evs = [] ->
  outstandingWrites c = 0%nat ->
  run tps c evs = Some c' ->
  sameWriteSide (peer c) (peer c').
Proof.
  induction evs as [|[now e] evs IH]; intros c c' He Ho Hr;
    cbn [run] in Hr.
  - injection Hr as <-. apply sameWriteSide_refl.
  - destruct (step tps now e c) as [c1|] eqn:Hs; [|discriminate].
    assert (H1 : sameWriteSide (peer c) (peer c1) /\
                 completedWrites c1 = completedWrites c /\
                 enqueued evs = []).
    { destruct e as [f | ec n | ec n r | ec n r co au th | ec | th | ];
        cbn [step enqueued] in Hs, He;
        try discriminate;
        try (rewrite Ho in Hs; cbn in Hs; discriminate);
        injection Hs as <-; cbn [peer completedWrites];
        (split; [|split; [reflexivity | exact He]]).
      - apply headerCompletion_sameWriteSide.
      - apply bodyCompletion_sameWriteSide.
      - apply idleTimerExpired_sameWriteSide.
      - apply startRead_sameWriteSide, sameWriteSide_refl.
      - apply drop_sameWriteSide, sameWriteSide_refl. }
    destruct H1 as (Hsame & Hk & He').
    apply (sameWriteSide_trans _ (peer c1)); [exact Hsame|].
    apply IH; [exact He' | | exact Hr].
    unfold outstandingWrites in *.
    destruct Hsame as (_ & _ & HW). rewrite HW, Hk. exact Ho.
Qed.

(** X12.  [mLastWrite] moves only when a write is started.  On a
    connection that is never asked to send anything it keeps the
    creation time, however much is read; so a clean tick more than 30
    seconds after creation drops the connection as a write timeout even
    though reads are recent. *)
Theorem silent_sender_times_out tps role th t0 evs (c : Conn) (now : Z) :
  run tps (create role th t0) evs = Some c ->
  enqueued evs = [] ->
  now - mLastRead (peer c) <= seconds tps IO_TIMEOUT_SECONDS ->
  now - t0 > seconds tps IO_TIMEOUT_SECONDS ->
  mLastWrite (peer c) = t0 /\
  mState (idleTimerExpired tps false now (peer c)) = CLOSING /\
  trace (idleTimerExpired tps false now (peer c)) =
    trace (peer c) ++ Mark TimeoutWrite 1 :: teardownCalls (peer c).
Proof.
  intros Hr He Hrd Hwr.
  assert (Hw : mLastWrite (peer c) = t0).
  { assert (Ho : outstandingWrites (create role th t0) = 0%nat).
    { destruct (create_writeInv role th t0) as (D & HW & HE & HD).
      destruct D; [|discriminate].
      destruct (mWriteQueue (peer (create role th t0))); [|discriminate].
      unfold outstandingWrites. rewrite HW. reflexivity. }
    destruct (run_without_send tps evs _ c He Ho Hr) as (_ & H & _).
    rewrite H. apply create_stamps. }
  split; [exact Hw|].
  unfold idleTimerExpired. cbn [negb]. rewrite Hw.
  destruct (Z.gtb_spec (now - mLastRead (peer c))
              (seconds tps IO_TIMEOUT_SECONDS)); [lia|].
  destruct (Z.gtb_spec (now - t0) (seconds tps IO_TIMEOUT_SECONDS)); [|lia].
  split; [apply drop_closing|].
  rewrite trace_drop, trace_emit, <- app_assoc. reflexivity.
Qed.

Lemma silent_sender_times_out_witness :
  let evs := [ (20, EvHeaderDone false 4 [x00; x00; x00; x01]);
               (25, EvBodyDone false 1 [x07] false false false) ] in
  let c := mkConn
             (bodyCompletion false 1 [x07] false false false 25
               (headerCompletion false 4 [x00; x00; x00; x01]
                 (accept false 0))) 0 in
  run 1 (create REMOTE_CALLED_US false 0) evs = Some c /\
  enqueued evs = [] /\
  31 - mLastRead (peer c) <= seconds 1 IO_TIMEOUT_SECONDS /\
  31 - 0 > seconds 1 IO_TIMEOUT_SECONDS /\
  mLastWrite (peer c) = 0 /\
  mState (idleTimerExpired 1 false 31 (peer c)) = CLOSING /\
  trace (idleTimerExpired 1 false 31 (peer c)) =
    trace (peer c) ++ Mark TimeoutWrite 1 :: teardownCalls (peer c).
Proof.
  intros evs c.
  assert (Hrun : run 1 (create REMOTE_CALLED_US false 0) evs = Some c)
    by (vm_compute; reflexivity).
  assert (He : enqueued evs = []) by reflexivity.
  assert (Hrd : 31 - mLastRead (peer c) <= seconds 1 IO_TIMEOUT_SECONDS)
    by (vm_compute; discriminate).
  assert (Hwr : 31 - 0 > seconds 1 IO_TIMEOUT_SECONDS)
    by (vm_compute; reflexivity).
  split; [exact Hrun|]. split; [exact He|]. split; [exact Hrd|].
  split; [exact Hwr|].
  exact (silent_sender_times_out 1 REMOTE_CALLED_US false 0 evs c 31
           Hrun He Hrd Hwr).
Defined.
